(** * nwbinspector: configuration, dispatch and report formatting

    A shallow embedding of [nwbinspector/nwbinspector.py]
    ([configure_checks], [run_checks], [inspect_nwb], [inspect_all]) and of
    [nwbinspector/inspector_tools.py] ([format_organized_results_output]).

    Python generators are embedded as finite traces: the events a full
    consumption of the generator causes, in order, and the way it ends
    (exhausted, or an exception that leaves it).  Check functions are
    objects with mutable attributes, so they live in a store and lists hold
    references to them. *)

From Stdlib Require Import String Ascii List Bool Arith ZArith Lia DecimalString.
From Stdlib Require Import Permutation Sorted.
Import ListNotations.

Local Open Scope string_scope.
Local Open Scope list_scope.

Infix "+s+" := String.append (at level 60, right associativity).

(* ------------------------------------------------------------------ *)
(** ** Enumerations of [register_checks.py] *)

(** Modelled from the spec: the [Importance] enum is declared in
    [register_checks.py], which is not among the sources.  The three
    best-practice levels ascend BEST_PRACTICE_SUGGESTION <
    BEST_PRACTICE_VIOLATION < CRITICAL; PYNWB_VALIDATION and ERROR are the
    two administrative levels. *)
Inductive Importance : Type :=
  | ERROR
  | PYNWB_VALIDATION
  | CRITICAL
  | BEST_PRACTICE_VIOLATION
  | BEST_PRACTICE_SUGGESTION.

Module ImportanceEnum.

(** [importance.name] *)
Definition name (i : Importance) : string :=
  match i with
  | ERROR => "ERROR"
  | PYNWB_VALIDATION => "PYNWB_VALIDATION"
  | CRITICAL => "CRITICAL"
  | BEST_PRACTICE_VIOLATION => "BEST_PRACTICE_VIOLATION"
  | BEST_PRACTICE_SUGGESTION => "BEST_PRACTICE_SUGGESTION"
  end.

(** Modelled from the spec: [importance.value], the numeric rank the
    threshold and the sort keys compare (the code negates it, so it is a
    number).  The best-practice levels ascend as the spec orders them and
    the administrative levels rank above them. *)
Definition value (i : Importance) : Z :=
  match i with
  | ERROR => 4
  | PYNWB_VALIDATION => 3
  | CRITICAL => 2
  | BEST_PRACTICE_VIOLATION => 1
  | BEST_PRACTICE_SUGGESTION => 0
  end%Z.

Definition members : list Importance :=
  [ERROR; PYNWB_VALIDATION; CRITICAL; BEST_PRACTICE_VIOLATION;
   BEST_PRACTICE_SUGGESTION].

(** [Importance[key]]: the member called [key]; [None] stands for the
    [KeyError] the subscript raises on any other string. *)
Definition getitem (key : string) : option Importance :=
  find (fun i => String.eqb (name i) key) members.

(** The two levels the spec calls administrative. *)
Definition administrative (i : Importance) : bool :=
  match i with
  | ERROR | PYNWB_VALIDATION => true
  | _ => false
  end.

End ImportanceEnum.

(** Modelled from the spec: [Severity] of [register_checks.py], LOW < HIGH
    and a sentinel for a check that assigns none. *)
Inductive Severity : Type := NO_SEVERITY | LOW | HIGH.

(* ------------------------------------------------------------------ *)
(** ** Exceptions *)

(** An exception raised by a collaborator (a check function, pynwb).  The
    code observes three things of it: whether it is an instance of
    [Exception] (what [except Exception] tests), its [str], and the text
    [traceback.format_exc()] returns while it is handled. *)
Record foreign_exception : Type := mkForeign {
  isinstance_Exception : bool;
  exc_str : string;
  format_exc : string
}.

(** What can leave a function of the module: an exception the module
    raises itself, spelled out, or one of a collaborator passing through. *)
Inductive exn : Type :=
  | ValueError (msg : string)
  | KeyError (key : string)
  | UnboundLocalError (variable : string)
  | AttributeError (type_name attribute : string)
  | Foreign (e : foreign_exception).

(** Exceptions other than the module's [ValueError]s and [KeyError]s. *)
Definition passes_through (e : exn) : Prop :=
  match e with
  | ValueError _ | KeyError _ => False
  | UnboundLocalError _ | AttributeError _ _ | Foreign _ => True
  end.

(* ------------------------------------------------------------------ *)
(** ** Messages *)

(** What the code stores in [check_function_name]: a string, or the
    exception object itself ([check_function_name=ex] on a failed read). *)
Inductive name_field : Type :=
  | NameNone
  | NameStr (s : string)
  | NameExc (e : foreign_exception).

(** Modelled from the spec: the [InspectorMessage] record of
    [register_checks.py]; fields other than [message] default to [None]
    (to the sentinel for [severity]). *)
Record InspectorMessage : Type := mkInspectorMessage {
  message : string;
  severity : Severity;
  importance : option Importance;
  check_function_name : name_field;
  object_type : option string;
  object_name : option string;
  location : option string;
  file : option string
}.

(** [inspector_message.file = nwbfile_path] *)
Definition set_file (m : InspectorMessage) (path : string) : InspectorMessage :=
  {| message := message m; severity := severity m; importance := importance m;
     check_function_name := check_function_name m;
     object_type := object_type m; object_name := object_name m;
     location := location m; file := Some path |}.

(** Values a check function can hand back, as far as [run_checks] and
    [inspect_nwb] tell them apart. *)
#[warnings="-register-all"]
Inductive pyval : Type :=
  | PNone
  | PMessage (m : InspectorMessage)
  | PStr (s : string)
  | PList (items : list pyval).

(** [type(v).__name__] *)
Definition type_name (v : pyval) : string :=
  match v with
  | PNone => "NoneType"
  | PMessage _ => "InspectorMessage"
  | PStr _ => "str"
  | PList _ => "list"
  end.

(** [isinstance(v, Iterable)]: strings and lists define [__iter__], the
    message record and [None] do not. *)
Definition isinstance_Iterable (v : pyval) : bool :=
  match v with
  | PStr _ | PList _ => true
  | PNone | PMessage _ => false
  end.

(** The items [for x in v] binds: the elements of a list, the one-character
    strings of a string. *)
Definition iter (v : pyval) : list pyval :=
  match v with
  | PList items => items
  | PStr s => map (fun c => PStr (String c EmptyString)) (list_ascii_of_string s)
  | PNone | PMessage _ => []
  end.

(* ------------------------------------------------------------------ *)
(** ** Objects of a file and check functions *)

(** An object of [nwbfile.objects]: its name and the names of the classes
    of [type(obj).__mro__]. *)
Record nwb_object : Type := mkObject {
  obj_name : string;
  obj_mro : list string
}.

(** [issubclass(type(obj), cls)] *)
Definition issubclass_type (o : nwb_object) (cls : string) : bool :=
  existsb (String.eqb cls) (obj_mro o).

Record NWBFile : Type := mkNWBFile {
  objects : list nwb_object       (* [nwbfile.objects.values()], in order *)
}.

Inductive call_result : Type :=
  | Returned (v : pyval)
  | Raised (e : foreign_exception).

(** A registered check function: the callable and the attributes the
    registration puts on it. *)
Module Check.
Record t : Type := mk {
  name : string;                          (* [__name__] *)
  importance : Importance;                (* mutable attribute *)
  neurodata_type : string;
  call : nwb_object -> call_result
}.

Definition with_importance (c : t) (lvl : Importance) : t :=
  {| name := name c; importance := lvl;
     neurodata_type := neurodata_type c; call := call c |}.
End Check.

(** References to check functions and the store they point into. *)
Definition check_ref : Type := nat.
Definition store : Type := check_ref -> Check.t.

(** [check.importance = lvl], on the object [r] refers to. *)
Definition setattr_importance (h : store) (r : check_ref) (lvl : Importance) : store :=
  fun r' => if Nat.eqb r' r then Check.with_importance (h r) lvl else h r'.

(* ------------------------------------------------------------------ *)
(** ** [configure_checks] *)

(** A config mapping, in the order [config.items()] iterates. *)
Definition config_t : Type := list (string * list string).

(** [x in names] for a list of strings. *)
Definition str_in (x : string) (names : list string) : bool :=
  existsb (String.eqb x) names.

(** The inner loop of [configure_checks] for one check: [continue] under
    "SKIP" moves on to the next item of the config. *)
Fixpoint configure_items (items : config_t) (check : check_ref) (h : store)
  : store * option exn :=
  match items with
  | [] => (h, None)
  | (importance_name, func_names) :: rest =>
      if str_in (Check.name (h check)) func_names then
        if String.eqb importance_name "SKIP" then
          configure_items rest check h
        else
          match ImportanceEnum.getitem importance_name with
          | Some lvl => configure_items rest check (setattr_importance h check lvl)
          | None => (h, Some (KeyError importance_name))
          end
      else configure_items rest check h
  end.

(** The outer loop, with [checks_out] as accumulator. *)
Fixpoint configure_loop (config : config_t) (checks checks_out : list check_ref)
  (h : store) : store * (exn + list check_ref) :=
  match checks with
  | [] => (h, inr checks_out)
  | check :: rest =>
      match configure_items config check h with
      | (h', Some e) => (h', inl e)
      | (h', None) => configure_loop config rest (checks_out ++ [check]) h'
      end
  end.

Definition configure_checks (config : config_t) (checks : list check_ref)
  (h : store) : store * (exn + list check_ref) :=
  configure_loop config checks [] h.

(* ------------------------------------------------------------------ *)
(** ** Generators as traces *)

(** What a run does besides yielding: opening and closing a file, calling
    a check function on an object. *)
Inductive effect : Type :=
  | Open (path : string)
  | Close (path : string)
  | Call (check : check_ref) (o : nwb_object).

Inductive event (Y : Type) : Type :=
  | Eff (e : effect)
  | Yield (y : Y).
Arguments Eff {Y} e.
Arguments Yield {Y} y.

(** A generator consumed to its end: the events in order, and the
    exception that left it if one did ([None]: exhausted). *)
Record gen (Y : Type) : Type := mkGen {
  trace : list (event Y);
  raised : option exn
}.
Arguments mkGen {Y} trace raised.
Arguments trace {Y} g.
Arguments raised {Y} g.

Module Gen.

Definition skip {Y} : gen Y := mkGen [] None.
Definition yield {Y} (y : Y) : gen Y := mkGen [Yield y] None.
Definition perform {Y} (e : effect) : gen Y := mkGen [Eff e] None.
Definition raise {Y} (e : exn) : gen Y := mkGen [] (Some e).

(** Sequencing: the second part runs only if the first did not raise. *)
Definition seq {Y} (g1 g2 : gen Y) : gen Y :=
  match raised g1 with
  | Some e => g1
  | None => mkGen (trace g1 ++ trace g2) (raised g2)
  end.

(** [for x in l: body x] over a list. *)
Definition for_each {A Y} (l : list A) (body : A -> gen Y) : gen Y :=
  fold_right (fun x rest => seq (body x) rest) skip l.

(** [for x in g: body x] over a generator: the effects of [g] happen as
    it is advanced, each yielded item runs the body, an exception of the
    body abandons [g], and an exception of [g] leaves the loop. *)
Fixpoint consume {A Y} (evs : list (event A)) (ending : option exn)
  (body : A -> gen Y) : gen Y :=
  match evs with
  | [] => mkGen [] ending
  | Eff e :: rest => seq (perform e) (consume rest ending body)
  | Yield a :: rest => seq (body a) (consume rest ending body)
  end.

Definition for_in {A Y} (g : gen A) (body : A -> gen Y) : gen Y :=
  consume (trace g) (raised g) body.

(** [with <resource at path>: body]: the resource is released when the
    body is left, normally or by an exception. *)
Definition closing {Y} (path : string) (body : gen Y) : gen Y :=
  mkGen (trace body ++ [Eff (Close path)]) (raised body).

(** The items a consumer receives. *)
Definition yielded {Y} (g : gen Y) : list Y :=
  flat_map (fun ev => match ev with Yield y => [y] | Eff _ => [] end) (trace g).

(** The effects of the run, in order. *)
Definition effects {Y} (g : gen Y) : list effect :=
  flat_map (fun ev => match ev with Eff e => [e] | Yield _ => [] end) (trace g).

(** The (check, object) pairs on which a check function was called. *)
Definition calls {Y} (g : gen Y) : list (check_ref * nwb_object) :=
  flat_map (fun e => match e with Call c o => [(c, o)] | _ => [] end) (effects g).

(** The files an open was attempted on. *)
Definition opened {Y} (g : gen Y) : list string :=
  flat_map (fun e => match e with Open p => [p] | _ => [] end) (effects g).

End Gen.

Notation "g1 ;; g2" := (Gen.seq g1 g2) (at level 61, right associativity).

(* ------------------------------------------------------------------ *)
(** ** [run_checks] *)

(** The message [run_checks] builds for a check that raised. *)
Definition check_error_message (check_name : string) (e : foreign_exception)
  : InspectorMessage :=
  {| message := format_exc e;
     severity := NO_SEVERITY;
     importance := Some ERROR;
     check_function_name := NameStr check_name;
     object_type := None; object_name := None; location := None;
     file := None |}.

(** Lines 216-221: what is yielded for one [output]. *)
Definition yield_output (output : pyval) : gen pyval :=
  match output with
  | PNone => Gen.skip
  | _ =>
      if isinstance_Iterable output
      then Gen.for_each (iter output) Gen.yield
      else Gen.yield output
  end.

(** The items [yield_output] yields, read off the shape of the output: none
    for [None], the message itself, the elements of a list, the characters
    of a string. *)
Definition items_of (output : pyval) : list pyval :=
  match output with
  | PNone => []
  | PMessage m => [PMessage m]
  | PList items => items
  | PStr s => map (fun ch => PStr (String ch EmptyString)) (list_ascii_of_string s)
  end.

(** The body of the two loops, for one check and one object. *)
Definition run_check (h : store) (check_function : check_ref)
  (nwbfile_object : nwb_object) : gen pyval :=
  if issubclass_type nwbfile_object (Check.neurodata_type (h check_function)) then
    Gen.perform (Call check_function nwbfile_object) ;;
    match Check.call (h check_function) nwbfile_object with
    | Returned output => yield_output output
    | Raised e =>
        if isinstance_Exception e
        then yield_output
               (PMessage (check_error_message (Check.name (h check_function)) e))
        else Gen.raise (Foreign e)
    end
  else Gen.skip.

Definition run_checks (h : store) (nwbfile : NWBFile) (checks : list check_ref)
  : gen pyval :=
  Gen.for_each checks (fun check_function =>
    Gen.for_each (objects nwbfile) (fun nwbfile_object =>
      run_check h check_function nwbfile_object)).

(* ------------------------------------------------------------------ *)
(** ** Files *)

(** An error [pynwb.validate] reports. *)
Record ValidationError : Type := mkValidationError {
  ve_name : string;
  ve_reason : string;
  ve_location : option string
}.

(** What an opened file answers: [pynwb.validate(io=io)] and [io.read()],
    each of which returns or raises. *)
Record NWBHDF5IO : Type := mkIO {
  io_validate : foreign_exception + list ValidationError;
  io_read : foreign_exception + NWBFile
}.

(** [pynwb.NWBHDF5IO(path=..., mode="r", ...)] for every path: the handle,
    or the exception the constructor raises. *)
Definition world : Type := string -> foreign_exception + NWBHDF5IO.

(** [Path(path).is_dir()] and [.is_file()], with the result of
    [natsorted(list(in_path.glob("*.nwb")))] for a directory. *)
Inductive path_kind : Type :=
  | Directory (sorted_nwbfiles : list string)
  | RegularFile
  | NoSuchPath.

Definition filesystem : Type := string -> path_kind.

(* ------------------------------------------------------------------ *)
(** ** [inspect_nwb] *)

(** The names of an optional list of names. *)
Definition names_of (l : option (list string)) : list string :=
  match l with Some names => names | None => [] end.

(** Truth value of an optional list of strings: [None] and the empty list
    are false. *)
Definition truthy (l : option (list string)) : bool :=
  match l with
  | None | Some [] => false
  | Some (_ :: _) => true
  end.

Definition is_not_None {A} (o : option A) : bool :=
  match o with Some _ => true | None => false end.

(** Truth value of an [Importance] member: an enum member is true. *)
Definition importance_truthy (i : Importance) : bool := true.

Definition usage_error : exn :=
  ValueError "Options 'ignore' and 'select' cannot both be used.".

Definition validation_message (validation_error : ValidationError) : InspectorMessage :=
  {| message := ve_reason validation_error;
     severity := NO_SEVERITY;
     importance := Some PYNWB_VALIDATION;
     check_function_name := NameStr (ve_name validation_error);
     object_type := None; object_name := None;
     location := ve_location validation_error;
     file := None |}.

Definition read_error_message (ex : foreign_exception) : InspectorMessage :=
  {| message := format_exc ex;
     severity := NO_SEVERITY;
     importance := Some ERROR;
     check_function_name := NameExc ex;
     object_type := None; object_name := None; location := None;
     file := None |}.

(** Lines 278-283: the checks handed to [run_checks]. *)
Definition filter_checks (h : store) (checks : list check_ref)
  (importance_threshold : Importance) (ignore select : option (list string))
  : list check_ref :=
  let checks :=
    if truthy select then
      filter (fun x => str_in (Check.name (h x)) (names_of select)) checks
    else if truthy ignore then
      filter (fun x => negb (str_in (Check.name (h x)) (names_of ignore))) checks
    else checks in
  if importance_truthy importance_threshold then
    filter (fun x => (ImportanceEnum.value (Check.importance (h x))
                      >=? ImportanceEnum.value importance_threshold)%Z) checks
  else checks.

(** The body of the loop of lines 284-286 for one item of [run_checks]:
    assigning [.file] fails on anything but a message. *)
Definition stamp_and_yield (nwbfile_path : string) (inspector_message : pyval)
  : gen InspectorMessage :=
  match inspector_message with
  | PMessage m => Gen.yield (set_file m nwbfile_path)
  | v => Gen.raise (AttributeError (type_name v) "file")
  end.

(** Lines 278-286, after the [try] statement.  The local [nwbfile] is bound
    only if [io.read()] returned ([None]: unbound); naming it as the
    argument of [run_checks] raises when it is not. *)
Definition inspect_read (h : store) (nwbfile : option NWBFile)
  (nwbfile_path : string) (checks : list check_ref)
  (importance_threshold : Importance) (ignore select : option (list string))
  : gen InspectorMessage :=
  let checks := filter_checks h checks importance_threshold ignore select in
  match nwbfile with
  | None => Gen.raise (UnboundLocalError "nwbfile")
  | Some nwbfile =>
      Gen.for_in (run_checks h nwbfile checks) (stamp_and_yield nwbfile_path)
  end.

(** Lines 265-286, inside the [with] block.  The [except] clause yields its
    message and falls through to the statements after the [try]. *)
Definition inspect_opened (h : store) (io : NWBHDF5IO) (nwbfile_path : string)
  (checks : list check_ref) (importance_threshold : Importance)
  (ignore select : option (list string)) : gen InspectorMessage :=
  match io_validate io with
  | inl e => Gen.raise (Foreign e)
  | inr validation_errors =>
      (* [any(validation_errors)] is true as soon as there is one *)
      Gen.for_each validation_errors (fun validation_error =>
        Gen.yield (validation_message validation_error)) ;;
      match io_read io with
      | inr nwbfile =>
          inspect_read h (Some nwbfile) nwbfile_path checks importance_threshold
            ignore select
      | inl ex =>
          if isinstance_Exception ex then
            Gen.yield (read_error_message ex) ;;
            inspect_read h None nwbfile_path checks importance_threshold
              ignore select
          else Gen.raise (Foreign ex)
      end
  end.

(** [importance_threshold] is an [Importance] here, so the membership test
    of line 259 never raises. *)
Definition inspect_nwb (h : store) (w : world) (nwbfile_path : string)
  (checks : list check_ref) (importance_threshold : Importance)
  (ignore select : option (list string)) : gen InspectorMessage :=
  if is_not_None ignore && is_not_None select then Gen.raise usage_error
  else
    Gen.perform (Open nwbfile_path) ;;
    match w nwbfile_path with
    | inl e => Gen.raise (Foreign e)
    | inr io =>
        Gen.closing nwbfile_path
          (inspect_opened h io nwbfile_path checks importance_threshold ignore select)
    end.

(* ------------------------------------------------------------------ *)
(** ** [inspect_all] *)

(** [inspect_all] for a call that leaves [modules] at its default ([None]),
    so that the loop of lines 178-179 imports nothing; [available_checks]
    is the global list of registered checks.  The files of a directory
    come in the order [natsorted] gives them (see [path_kind]), and the
    path is used as it is given.  The store comes back because
    [configure_checks] writes to it. *)
Definition inspect_all (fs : filesystem) (w : world)
  (available_checks : list check_ref) (path : string)
  (ignore select : option (list string)) (config : option config_t)
  (importance_threshold : Importance) (h : store)
  : store * gen InspectorMessage :=
  match
    (match fs path with
     | Directory sorted_nwbfiles => inr sorted_nwbfiles
     | RegularFile => inr [path]
     | NoSuchPath => inl (ValueError (path +s+ " should be a directory or an NWB file."))
     end)
  with
  | inl e => (h, Gen.raise e)
  | inr nwbfiles =>
      match
        (match config with
         | Some config => configure_checks config available_checks h
         | None => (h, inr available_checks)
         end)
      with
      | (h', inl e) => (h', Gen.raise e)
      | (h', inr checks) =>
          (h', Gen.for_each nwbfiles (fun nwbfile_path =>
                 Gen.for_in
                   (inspect_nwb h' w nwbfile_path checks importance_threshold ignore select)
                   Gen.yield))
      end
  end.

(* ------------------------------------------------------------------ *)
(** ** [format_organized_results_output] *)

Definition newline : string := String (ascii_of_nat 10) EmptyString.

(** [str(n)] for an index. *)
Definition str_nat (n : nat) : string := NilEmpty.string_of_uint (Nat.to_uint n).

(** How an f-string renders an optional string: [None] prints as "None". *)
Definition str_opt (o : option string) : string :=
  match o with Some s => s | None => "None" end.

Definition str_name (n : name_field) : string :=
  match n with
  | NameNone => "None"
  | NameStr s => s
  | NameExc e => exc_str e
  end.

(** [s * n] *)
Fixpoint str_repeat (s : string) (n : nat) : string :=
  match n with
  | O => EmptyString
  | S k => s +s+ str_repeat s k
  end.

(** [s.replace(old, new)] for one-character [old] and [new]. *)
Fixpoint replace_char (old new : ascii) (s : string) : string :=
  match s with
  | EmptyString => EmptyString
  | String c rest =>
      String (if Ascii.eqb c old then new else c) (replace_char old new rest)
  end.

(** [enumerate(l, start=start)] *)
Fixpoint enumerate {A} (start : nat) (l : list A) : list (nat * A) :=
  match l with
  | [] => []
  | x :: rest => (start, x) :: enumerate (S start) rest
  end.

(** The key of a bucket of the per-file dict: [organize_messages_by_file]
    keys the buckets by [Importance] members, [organize_check_results] by
    their names. *)
Inductive bucket_key : Type :=
  | KeyMember (level : Importance)
  | KeyName (name : string).

(** [key.name]: only a member has the attribute. *)
Definition key_name (key : bucket_key) : exn + string :=
  match key with
  | KeyMember level => inr (ImportanceEnum.name level)
  | KeyName _ => inl (AttributeError "str" "name")
  end.

(** [key == s] for a string [s]: a member of an enum with numeric values is
    never equal to a [str]. *)
Definition key_eq_str (key : bucket_key) (s : string) : bool :=
  match key with
  | KeyMember _ => false
  | KeyName name => String.eqb name s
  end.

(** [key in strs] *)
Definition key_in (key : bucket_key) (strs : list string) : bool :=
  existsb (key_eq_str key) strs.

(** "i.j.k" *)
Definition numbering (nwbfile_index importance_index check_index : nat) : string :=
  str_nat nwbfile_index +s+ "." +s+ str_nat importance_index +s+ "."
  +s+ str_nat check_index.

(** The entry of lines 50-53. *)
Definition administrative_entry (nwbfile_index importance_index check_index : nat)
  (check_result : InspectorMessage) : string :=
  numbering nwbfile_index importance_index check_index +s+ "   "
  +s+ str_opt (object_type check_result) +s+ " '"
  +s+ str_opt (location check_result) +s+ "': "
  +s+ str_name (check_function_name check_result) +s+ ": "
  +s+ message check_result +s+ newline.

(** The entry of lines 56-60. *)
Definition normal_entry (nwbfile_index importance_index check_index : nat)
  (check_result : InspectorMessage) : string :=
  numbering nwbfile_index importance_index check_index +s+ "   "
  +s+ str_opt (object_type check_result) +s+ " '"
  +s+ str_opt (object_name check_result) +s+ "' located in '"
  +s+ str_opt (location check_result) +s+ "'" +s+ newline
  +s+ "        " +s+ str_name (check_function_name check_result) +s+ ": "
  +s+ message check_result +s+ newline.

(** The results of one file, in the order of the dict. *)
Definition organized_check_results_t : Type :=
  list (bucket_key * list InspectorMessage).

(** A loop that appends the lines of each round to [formatted_output] and
    is left by the first exception. *)
Fixpoint collect {A} (round : A -> exn + list string) (l : list A)
  : exn + list string :=
  match l with
  | [] => inr []
  | x :: rest =>
      match round x with
      | inl e => inl e
      | inr lines =>
          match collect round rest with
          | inl e => inl e
          | inr more => inr (lines ++ more)
          end
      end
  end.

(** Lines 44-60 for one bucket. *)
Definition format_bucket (nwbfile_index importance_index : nat)
  (importance_level : bucket_key) (check_results : list InspectorMessage)
  : exn + list string :=
  match key_name importance_level with
  | inl e => inl e
  | inr name =>
      let importance_string := replace_char "_"%char " "%char name in
      inr ([newline +s+ importance_string +s+ newline;
            str_repeat "-" (String.length importance_string) +s+ newline]
           ++ (if key_in importance_level ["ERROR"; "PYNWB_VALIDATION"] then
                 map (fun '(check_index, check_result) =>
                        administrative_entry nwbfile_index importance_index
                          check_index check_result)
                     (enumerate 1 check_results)
               else
                 map (fun '(check_index, check_result) =>
                        normal_entry nwbfile_index importance_index
                          check_index check_result)
                     (enumerate 1 check_results)))
  end.

(** Lines 39-62 for one file. *)
Definition format_file (num_nwbfiles nwbfile_index : nat)
  (nwbfile_name : option string)
  (organized_check_results : organized_check_results_t) : exn + list string :=
  let nwbfile_name_string := "NWBFile: " +s+ str_opt nwbfile_name in
  match
    collect (fun '(importance_index, (importance_level, check_results)) =>
               format_bucket nwbfile_index importance_index importance_level
                 check_results)
            (enumerate 1 organized_check_results)
  with
  | inl e => inl e
  | inr lines =>
      inr ([nwbfile_name_string +s+ newline;
            str_repeat "=" (String.length nwbfile_name_string) +s+ newline]
           ++ lines
           ++ (if negb (Nat.eqb nwbfile_index num_nwbfiles)
               then [newline +s+ newline +s+ newline] else []))
  end.

Definition format_organized_results_output
  (organized_results : list (option string * organized_check_results_t))
  : exn + list string :=
  let num_nwbfiles := length organized_results in
  collect (fun '(nwbfile_index, (nwbfile_name, organized_check_results)) =>
             format_file num_nwbfiles nwbfile_index nwbfile_name
               organized_check_results)
          (enumerate 1 organized_results).

(* ================================================================== *)
(** * Scenarios

    Concrete check functions, stores and files the properties below are
    evaluated on. *)

(** A check function that gives the same result on every object. *)
Definition constant_check (name : string) (lvl : Importance) (cls : string)
  (result : call_result) : Check.t :=
  {| Check.name := name; Check.importance := lvl;
     Check.neurodata_type := cls; Check.call := fun _ => result |}.

(** A store whose references 0, 1, ... are the checks of [l] and whose other
    references are [default]. *)
Definition store_of (default : Check.t) (l : list Check.t) : store :=
  fun r => nth r l default.

Definition plain_message (text : string) (lvl : option Importance) : InspectorMessage :=
  {| message := text; severity := NO_SEVERITY; importance := lvl;
     check_function_name := NameNone;
     object_type := None; object_name := None; location := None;
     file := None |}.

Definition time_series_object : nwb_object :=
  {| obj_name := "ts"; obj_mro := ["TimeSeries"; "NWBDataInterface"; "object"] |}.

(** A config that lists [check_a] under "SKIP". *)
Module SkipScenario.
Definition check_a : Check.t :=
  constant_check "check_a" CRITICAL "TimeSeries" (Returned PNone).
Definition h : store := store_of check_a [check_a].
Definition config : config_t := [("SKIP", ["check_a"])].
Definition checks : list check_ref := [0].
End SkipScenario.

(** A config that moves [check_a] to CRITICAL, and a later one that does
    not mention it. *)
Module ReconfigureScenario.
Definition check_a : Check.t :=
  constant_check "check_a" BEST_PRACTICE_SUGGESTION "TimeSeries" (Returned PNone).
Definition h : store := store_of check_a [check_a].
Definition checks : list check_ref := [0].
Definition first_config : config_t := [("CRITICAL", ["check_a"])].
Definition second_config : config_t := [("BEST_PRACTICE_VIOLATION", ["check_b"])].
End ReconfigureScenario.

(** A file with two time series, a check that raises on every object and a
    check that reports on every object. *)
Module RaisingScenario.
Definition zero_division : foreign_exception :=
  {| isinstance_Exception := true;
     exc_str := "division by zero";
     format_exc := "Traceback (most recent call last): ZeroDivisionError: division by zero" |}.
Definition check_boom : Check.t :=
  constant_check "check_boom" BEST_PRACTICE_VIOLATION "TimeSeries" (Raised zero_division).
Definition finding : InspectorMessage :=
  plain_message "Data may be in the wrong orientation." (Some CRITICAL).
Definition check_fine : Check.t :=
  constant_check "check_fine" CRITICAL "TimeSeries" (Returned (PMessage finding)).
Definition h : store := store_of check_fine [check_boom; check_fine].
Definition second_object : nwb_object :=
  {| obj_name := "ts2"; obj_mro := ["ElectricalSeries"; "TimeSeries"; "object"] |}.
Definition nwbfile : NWBFile :=
  {| objects := [time_series_object; second_object] |}.
End RaisingScenario.

(** A check that hands back a bare string. *)
Module BareStringScenario.
Definition check_str : Check.t :=
  constant_check "check_str" CRITICAL "TimeSeries" (Returned (PStr "ab")).
Definition h : store := store_of check_str [check_str].
Definition nwbfile : NWBFile := {| objects := [time_series_object] |}.
End BareStringScenario.

(** Files on disk: a world in which the listed paths open and every other
    path fails to. *)
Definition unable_to_open : foreign_exception :=
  {| isinstance_Exception := true;
     exc_str := "Unable to open file";
     format_exc := "Traceback (most recent call last): OSError: Unable to open file" |}.

Definition world_of (files : list (string * NWBHDF5IO)) : world :=
  fun path =>
    match find (fun entry => String.eqb (fst entry) path) files with
    | Some entry => inr (snd entry)
    | None => inl unable_to_open
    end.

(** A directory of two files; reading the first one fails. *)
Module BatchScenario.
Definition corrupt : foreign_exception :=
  {| isinstance_Exception := true;
     exc_str := "Could not construct NWBFile";
     format_exc := "Traceback (most recent call last): ConstructError: Could not construct NWBFile" |}.
Definition broken_io : NWBHDF5IO :=
  {| io_validate := inr []; io_read := inl corrupt |}.
Definition good_io : NWBHDF5IO :=
  {| io_validate := inr [];
     io_read := inr {| objects := [time_series_object] |} |}.
Definition w : world := world_of [("a.nwb", broken_io); ("b.nwb", good_io)].
Definition fs : filesystem :=
  fun path =>
    if String.eqb path "session" then Directory ["a.nwb"; "b.nwb"]
    else NoSuchPath.
Definition h : store := RaisingScenario.h.
Definition available_checks : list check_ref := [1].
End BatchScenario.

(** A file the validator complains about and one check reports on. *)
Module ValidationScenario.
Definition missing_attribute : ValidationError :=
  {| ve_name := "root/session_description";
     ve_reason := "argument missing";
     ve_location := Some "/" |}.
Definition io : NWBHDF5IO :=
  {| io_validate := inr [missing_attribute];
     io_read := inr {| objects := [time_series_object] |} |}.
Definition broken_io : NWBHDF5IO :=
  {| io_validate := inr [missing_attribute];
     io_read := inl BatchScenario.corrupt |}.
Definition w : world := world_of [("v.nwb", io); ("w.nwb", broken_io)].
Definition h : store := RaisingScenario.h.
Definition checks : list check_ref := [1].
End ValidationScenario.

(** A CRITICAL check whose message carries a lower importance, and a
    BEST_PRACTICE_VIOLATION check that raises. *)
Module ThresholdScenario.
Definition suggestion : InspectorMessage :=
  plain_message "Description is missing." (Some BEST_PRACTICE_SUGGESTION).
Definition check_description : Check.t :=
  constant_check "check_description" CRITICAL "TimeSeries"
    (Returned (PMessage suggestion)).
Definition h : store :=
  store_of check_description [check_description; RaisingScenario.check_boom].
Definition checks : list check_ref := [0; 1].
Definition w : world := world_of [("f.nwb", BatchScenario.good_io)].
End ThresholdScenario.

(** The organized results of one file whose only bucket is ERROR: the
    message [run_checks] builds for a check that raised, stamped with the
    file. *)
Module ReportScenario.
Definition crash : InspectorMessage :=
  set_file (check_error_message "check_boom" RaisingScenario.zero_division) "a.nwb".
Definition organized_results : list (option string * organized_check_results_t) :=
  [(Some "a.nwb", [(KeyMember ERROR, [crash])])].
End ReportScenario.

(** A check that is interrupted: what it raises is not an [Exception]. *)
Module InterruptScenario.
Definition keyboard_interrupt : foreign_exception :=
  {| isinstance_Exception := false;
     exc_str := "";
     format_exc := "Traceback (most recent call last): KeyboardInterrupt" |}.
Definition check_slow : Check.t :=
  constant_check "check_slow" CRITICAL "TimeSeries" (Raised keyboard_interrupt).
Definition h : store := store_of check_slow [RaisingScenario.check_fine; check_slow].
Definition nwbfile : NWBFile := {| objects := [time_series_object] |}.
Definition w : world :=
  world_of [("i.nwb", {| io_validate := inr []; io_read := inr nwbfile |})].
End InterruptScenario.


(** A readable file for the check that hands back a bare string. *)
Module BareStringFile.
Definition io : NWBHDF5IO :=
  {| io_validate := inr []; io_read := inr BareStringScenario.nwbfile |}.
Definition w : world := world_of [("s.nwb", io)].
End BareStringFile.


(* ================================================================== *)
(** * Notions used to state further properties *)

(** [isinstance(v, InspectorMessage)] *)
Definition is_message (v : pyval) : bool :=
  match v with
  | PMessage _ => true
  | PNone | PStr _ | PList _ => false
  end.

(** The test of line 206 for a check and an object. *)
Definition applies_to (h : store) (c : check_ref) (o : nwb_object) : bool :=
  issubclass_type o (Check.neurodata_type (h c)).

(** The items lines 207-221 yield for one call that is not left by an
    exception: those of the output, or the one message that stands for an
    [Exception] the check raised. *)
Definition pair_items (h : store) (c : check_ref) (o : nwb_object) : list pyval :=
  match Check.call (h c) o with
  | Returned output => items_of output
  | Raised e => [PMessage (check_error_message (Check.name (h c)) e)]
  end.

(** The events of one pair: the call and its items, if the check applies. *)
Definition pair_events (h : store) (c : check_ref) (o : nwb_object)
  : list (event pyval) :=
  if applies_to h c o
  then Eff (Call c o) :: map Yield (pair_items h c o)
  else [].


(** The messages among yielded items. *)
Definition messages_of (items : list pyval) : list InspectorMessage :=
  flat_map (fun v => match v with PMessage m => [m] | _ => [] end) items.

(** An effect as the event of a call. *)
Definition call_effect (pair : check_ref * nwb_object) : effect :=
  Call (fst pair) (snd pair).

(** What the loop of lines 284-286 makes of an event of [run_checks] when
    the item is a message. *)
Definition stamp_event (nwbfile_path : string) (ev : event pyval)
  : list (event InspectorMessage) :=
  match ev with
  | Eff e => [Eff e]
  | Yield (PMessage m) => [Yield (set_file m nwbfile_path)]
  | Yield _ => []
  end.


(** The number of buckets and of messages of organized results. *)
Definition count_buckets
  (organized_results : list (option string * organized_check_results_t)) : nat :=
  list_sum (map (fun entry => length (snd entry)) organized_results).

Definition count_bucket_messages (buckets : organized_check_results_t) : nat :=
  list_sum (map (fun bucket => length (snd bucket)) buckets).

Definition count_messages
  (organized_results : list (option string * organized_check_results_t)) : nat :=
  list_sum (map (fun entry => count_bucket_messages (snd entry)) organized_results).


(* ================================================================== *)
(** * [organize_messages_by_file] *)

(** Modelled from the spec: [severity.value] of [register_checks.py], the
    sentinel below LOW below HIGH. *)
Definition severity_value (s : Severity) : Z :=
  match s with
  | NO_SEVERITY => 0
  | LOW => 1
  | HIGH => 2
  end%Z.

(** What leaves [organize_messages_by_file]: the [TypeError] of a
    comparison by [<] between [None] and a path, or an exception of the
    kinds above. *)
Inductive organize_error : Type :=
  | TypeError
  | Builtin (e : exn).

(** [a == b] on values of the [file] field. *)
Definition file_eqb (a b : option string) : bool :=
  match a, b with
  | None, None => true
  | Some x, Some y => String.eqb x y
  | _, _ => false
  end.

(** [x.importance == importance] for a member [importance]. *)
Definition importance_is (a : option Importance) (b : Importance) : bool :=
  match a with
  | Some i => Z.eqb (ImportanceEnum.value i) (ImportanceEnum.value b)
  | None => false
  end.

Definition member_eqb (a b : Importance) : bool :=
  Z.eqb (ImportanceEnum.value a) (ImportanceEnum.value b).

(** The elements of [set(l)], each once.  The order of a set is not
    specified; both uses sort the elements by a key that tells them
    apart, so the sorted list does not depend on it. *)
Fixpoint distinct {A} (eqb : A -> A -> bool) (l : list A) : list A :=
  match l with
  | [] => []
  | x :: rest =>
      if existsb (eqb x) rest then distinct eqb rest else x :: distinct eqb rest
  end.

(** [sorted(l, key=key)] for an integer key: stable, ascending. *)
Fixpoint insert_by {A} (key : A -> Z) (x : A) (sorted : list A) : list A :=
  match sorted with
  | [] => [x]
  | y :: rest =>
      if (key x <=? key y)%Z then x :: y :: rest else y :: insert_by key x rest
  end.

Fixpoint sorted_by {A} (key : A -> Z) (l : list A) : list A :=
  match l with
  | [] => []
  | x :: rest => insert_by key x (sorted_by key rest)
  end.

(** A loop that stores the value of each round under its key and is left by
    the first exception. *)
Fixpoint traverse {K V} (round : K -> organize_error + V) (keys : list K)
  : organize_error + list (K * V) :=
  match keys with
  | [] => inr []
  | k :: rest =>
      match round k with
      | inl e => inl e
      | inr v =>
          match traverse round rest with
          | inl e => inl e
          | inr more => inr ((k, v) :: more)
          end
      end
  end.

Section OrganizeByFile.

(** [a < b] on the paths that are in use as values of [file] ([str] or
    [Path], each with its own order). *)
Variable path_lt : string -> string -> bool.

(** [sorted(files)] for distinct paths. *)
Fixpoint insert_path (x : string) (sorted : list string) : list string :=
  match sorted with
  | [] => [x]
  | y :: rest => if path_lt x y then x :: y :: rest else y :: insert_path x rest
  end.

Fixpoint sorted_paths (l : list string) : list string :=
  match l with
  | [] => []
  | x :: rest => insert_path x (sorted_paths rest)
  end.

(** Line 39.  With the unset [file] among two or more distinct values the
    sort compares [None] with a path and raises; alone it is not compared;
    otherwise all values are paths. *)
Definition sorted_files (messages : list InspectorMessage)
  : organize_error + list (option string) :=
  let files := distinct file_eqb (map file messages) in
  if existsb (fun f => negb (is_not_None f)) files then
    if (2 <=? length files)%nat
    then inl TypeError
    else inr files
  else
    inr (map Some
           (sorted_paths
              (flat_map (fun f => match f with Some p => [p] | None => [] end) files))).

(** Lines 42-48 for one file.  The key [-x.value] is taken of every
    importance of the set before the sort, and fails on [None]. *)
Definition organize_file (messages : list InspectorMessage) (file_key : option string)
  : organize_error + organized_check_results_t :=
  let file_messages := filter (fun x => file_eqb (file x) file_key) messages in
  if existsb (fun x => negb (is_not_None (importance x))) file_messages then
    inl (Builtin (AttributeError "NoneType" "value"))
  else
    let importances :=
      sorted_by (fun i => (- ImportanceEnum.value i)%Z)
        (distinct member_eqb
           (flat_map (fun x => match importance x with Some i => [i] | None => [] end)
              file_messages)) in
    inr (map (fun level =>
                (KeyMember level,
                 sorted_by (fun x => (- severity_value (severity x))%Z)
                   (filter (fun x => importance_is (importance x) level) file_messages)))
             importances).

Definition organize_messages_by_file (messages : list InspectorMessage)
  : organize_error + list (option string * organized_check_results_t) :=
  match sorted_files messages with
  | inl e => inl e
  | inr files => traverse (organize_file messages) files
  end.

(** Lines 144-146 of [inspect_all_cli]: the report made of the collected
    messages, if there are any. *)
Definition report_lines (messages : list InspectorMessage)
  : organize_error + option (list string) :=
  match messages with
  | [] => inr None
  | _ :: _ =>
      match organize_messages_by_file messages with
      | inl e => inl e
      | inr organized_results =>
          match format_organized_results_output organized_results with
          | inl e => inl (Builtin e)
          | inr formatted_results => inr (Some formatted_results)
          end
      end
  end.

End OrganizeByFile.

(** Messages of two files, stamped, of mixed importance and severity. *)
Module OrganizeScenario.
Definition msg (text : string) (lvl : Importance) (sev : Severity) (path : string)
  : InspectorMessage :=
  {| message := text; severity := sev; importance := Some lvl;
     check_function_name := NameStr "check_x";
     object_type := Some "TimeSeries"; object_name := Some "ts";
     location := Some "/acquisition/"; file := Some path |}.
Definition m1 := msg "one" BEST_PRACTICE_SUGGESTION LOW "b.nwb".
Definition m2 := msg "two" CRITICAL LOW "a.nwb".
Definition m3 := msg "three" BEST_PRACTICE_SUGGESTION HIGH "b.nwb".
Definition m4 := msg "four" CRITICAL LOW "b.nwb".
Definition m5 := msg "five" BEST_PRACTICE_SUGGESTION LOW "b.nwb".
Definition messages : list InspectorMessage := [m1; m2; m3; m4; m5].
End OrganizeScenario.


(* ================================================================== *)
(** * Checks of [checks/time_series.py] on the shape of the data *)

(** What the two checks read of a [TimeSeries]: the shape of [data] and of
    [timestamps], for array-like values ([None] if the attribute is
    [None]). *)
Record TimeSeries : Type := mkTimeSeries {
  data_shape : option (list nat);
  timestamps_shape : option (list nat)
}.

(** What a call of a check function gives before the registration wrapper
    sees it: [None], a message, or the [IndexError] of indexing an empty
    shape. *)
Inductive check_outcome : Type :=
  | Nothing
  | Finding (m : InspectorMessage)
  | RaisesIndexError.

(** [InspectorMessage(message=text)], every other field at its default. *)
Definition new_message (text : string) : InspectorMessage :=
  plain_message text None.

(** Lines 37-46.  [shape[1:] > shape[0]] is taken element by element;
    [shape[0]] does not exist for a zero-dimensional array. *)
Definition check_data_orientation (time_series : TimeSeries) : check_outcome :=
  match data_shape time_series with
  | None => Nothing
  | Some shape =>
      match shape with
      | [] => RaisesIndexError
      | first :: others =>
          if existsb (fun d => Nat.ltb first d) others then
            Finding (new_message
              ("Data may be in the wrong orientation. "
               +s+ "Time should be in the first dimension, and is usually the longest dimension. "
               +s+ "Here, another dimension is longer."))
          else Nothing
      end
  end.

(** [a != b] on shapes. *)
Definition shape_neb (a b : list nat) : bool :=
  negb (if list_eq_dec Nat.eq_dec a b then true else false).

(** Lines 49-63. *)
Definition check_timestamps_match_first_dimension (time_series : TimeSeries)
  : check_outcome :=
  match data_shape time_series, timestamps_shape time_series with
  | Some shape, Some stamps =>
      if shape_neb (firstn 1 shape) stamps then
        Finding (new_message
          "The length of the first dimension of data does not match the length of timestamps.")
      else Nothing
  | _, _ => Nothing
  end.

(* ================================================================== *)
(** * [save_report] *)

(** The files the report can be written to: the text of each path that
    exists.  Directories and permissions are left out: a path holds a file
    or is free. *)
Definition disk : Type := string -> option string.

Inductive save_outcome : Type :=
  | Saved (d : disk)
  | RaisesFileExistsError.

(** [inspector_tools.save_report]: the lines are written one after the
    other, with no translation of line ends. *)
Definition save_report (d : disk) (report_file_path : string)
  (formatted_results : list string) (overwrite : bool) : save_outcome :=
  if is_not_None (d report_file_path) && negb overwrite then RaisesFileExistsError
  else
    Saved (fun path =>
             if String.eqb path report_file_path
             then Some (String.concat "" formatted_results)
             else d path).


Definition is_finding (outcome : check_outcome) : bool :=
  match outcome with
  | Finding _ => true
  | Nothing | RaisesIndexError => false
  end.

(** A two-dimensional series of [rows] by [columns] values. *)
Definition matrix_series (rows columns : nat) (stamps : option (list nat)) : TimeSeries :=
  {| data_shape := Some [rows; columns]; timestamps_shape := stamps |}.


(* ================================================================== *)
(** * Properties *)

(* ------------------------------------------------------------------ *)
(** ** Laws of traces *)

Section GenLaws.
Context {Y : Type}.
Implicit Types g : gen Y.

Lemma gen_eta g : mkGen (trace g) (raised g) = g.
Proof. destruct g; reflexivity. Qed.

Lemma seq_skip_l g : Gen.skip ;; g = g.
Proof. unfold Gen.seq; simpl. apply gen_eta. Qed.

Lemma seq_skip_r g : g ;; Gen.skip = g.
Proof.
  destruct g as [t [e|]]; unfold Gen.seq; simpl; [reflexivity|].
  now rewrite app_nil_r.
Qed.

Lemma seq_assoc g1 g2 g3 : (g1 ;; g2) ;; g3 = g1 ;; (g2 ;; g3).
Proof.
  destruct g1 as [t1 [e1|]], g2 as [t2 [e2|]], g3 as [t3 r3];
    unfold Gen.seq; simpl; try reflexivity.
  now rewrite app_assoc.
Qed.

Lemma seq_raise_l (e : exn) g : Gen.raise e ;; g = Gen.raise e.
Proof. reflexivity. Qed.

Lemma for_each_app {A} (l1 l2 : list A) (body : A -> gen Y) :
  Gen.for_each (l1 ++ l2) body = Gen.for_each l1 body ;; Gen.for_each l2 body.
Proof.
  induction l1 as [|x l1 IH]; simpl.
  - now rewrite seq_skip_l.
  - unfold Gen.for_each in *; simpl. now rewrite IH, seq_assoc.
Qed.

Lemma for_each_cons {A} (x : A) (l : list A) (body : A -> gen Y) :
  Gen.for_each (x :: l) body = body x ;; Gen.for_each l body.
Proof. reflexivity. Qed.

(** A loop that only yields never raises and yields its items in order. *)
Lemma for_each_yield {A} (l : list A) (f : A -> Y) :
  Gen.for_each l (fun x => Gen.yield (f x)) = mkGen (map (fun x => Yield (f x)) l) None.
Proof.
  induction l as [|x l IH]; [reflexivity|].
  rewrite for_each_cons, IH. reflexivity.
Qed.

(** Re-yielding every item of a generator gives the generator back. *)
Lemma consume_yield (evs : list (event Y)) (ending : option exn) :
  Gen.consume evs ending Gen.yield = mkGen evs ending.
Proof.
  induction evs as [|[e|y] evs IH]; simpl; [reflexivity| |];
    rewrite IH; reflexivity.
Qed.

Lemma for_in_yield g : Gen.for_in g Gen.yield = g.
Proof. unfold Gen.for_in. rewrite consume_yield. apply gen_eta. Qed.

Lemma yielded_seq g1 g2 :
  raised g1 = None -> Gen.yielded (g1 ;; g2) = Gen.yielded g1 ++ Gen.yielded g2.
Proof.
  intros H. unfold Gen.seq, Gen.yielded. rewrite H. simpl.
  apply flat_map_app.
Qed.

Lemma raised_seq g1 g2 :
  raised (g1 ;; g2) = match raised g1 with Some e => Some e | None => raised g2 end.
Proof. unfold Gen.seq. destruct (raised g1) eqn:E; simpl; auto. Qed.

Lemma yielded_closing (path : string) g :
  Gen.yielded (Gen.closing path g) = Gen.yielded g.
Proof.
  unfold Gen.closing, Gen.yielded; simpl.
  rewrite flat_map_app; simpl. now rewrite app_nil_r.
Qed.

End GenLaws.

(* ------------------------------------------------------------------ *)
(** ** The store under [configure_checks] *)

Lemma setattr_importance_same (h : store) (r : check_ref) (lvl : Importance) :
  Check.importance (setattr_importance h r lvl r) = lvl.
Proof. unfold setattr_importance. now rewrite Nat.eqb_refl. Qed.

Lemma setattr_importance_other (h : store) (r r' : check_ref) (lvl : Importance) :
  r' <> r -> setattr_importance h r lvl r' = h r'.
Proof.
  intros Hne. unfold setattr_importance.
  destruct (Nat.eqb_spec r' r); [contradiction | reflexivity].
Qed.

Lemma setattr_importance_name (h : store) (r r' : check_ref) (lvl : Importance) :
  Check.name (setattr_importance h r lvl r') = Check.name (h r').
Proof.
  unfold setattr_importance.
  destruct (Nat.eqb_spec r' r) as [->|]; reflexivity.
Qed.

(** Configuring one check leaves every other object alone. *)
Lemma configure_items_frame (items : config_t) (c r : check_ref) (h : store) :
  r <> c -> fst (configure_items items c h) r = h r.
Proof.
  intros Hne. revert h.
  induction items as [|[key names] items IH]; intros h; simpl; [reflexivity|].
  destruct (str_in _ names); [|apply IH].
  destruct (String.eqb key "SKIP"); [apply IH|].
  destruct (ImportanceEnum.getitem key) as [lvl|]; [|reflexivity].
  rewrite IH. now apply setattr_importance_other.
Qed.

(** No step of the configuration renames a check. *)
Lemma configure_items_name (items : config_t) (c r : check_ref) (h : store) :
  Check.name (fst (configure_items items c h) r) = Check.name (h r).
Proof.
  revert h.
  induction items as [|[key names] items IH]; intros h; simpl; [reflexivity|].
  destruct (str_in _ names); [|apply IH].
  destruct (String.eqb key "SKIP"); [apply IH|].
  destruct (ImportanceEnum.getitem key) as [lvl|]; [|reflexivity].
  rewrite IH. apply setattr_importance_name.
Qed.

Lemma configure_items_app (l1 l2 : config_t) (c : check_ref) (h : store) :
  configure_items (l1 ++ l2) c h =
  match configure_items l1 c h with
  | (h1, None) => configure_items l2 c h1
  | (h1, Some e) => (h1, Some e)
  end.
Proof.
  revert h.
  induction l1 as [|[key names] l1 IH]; intros h; simpl; [reflexivity|].
  destruct (str_in _ names); [|apply IH].
  destruct (String.eqb key "SKIP"); [apply IH|].
  destruct (ImportanceEnum.getitem key) as [lvl|]; [apply IH|reflexivity].
Qed.

(** Items that list the check under "SKIP" only, or not at all, change
    nothing: [continue] moves to the next item. *)
Lemma configure_items_inert (items : config_t) (c : check_ref) (h : store) :
  (forall key names, In (key, names) items ->
     str_in (Check.name (h c)) names = true -> key = "SKIP") ->
  configure_items items c h = (h, None).
Proof.
  induction items as [|[key names] items IH]; intros Hskip; simpl; [reflexivity|].
  destruct (str_in _ names) eqn:Hin.
  - rewrite (Hskip key names (or_introl eq_refl) Hin). simpl.
    apply IH. intros k n Hk. apply Hskip. now right.
  - apply IH. intros k n Hk. apply Hskip. now right.
Qed.

Lemma getitem_SKIP : ImportanceEnum.getitem "SKIP" = None.
Proof. reflexivity. Qed.

(** The last importance key that lists a check decides its importance. *)
Lemma configure_items_last (before after : config_t) (key : string)
  (names : list string) (lvl : Importance) (c : check_ref) (h h' : store) :
  ImportanceEnum.getitem key = Some lvl ->
  str_in (Check.name (h c)) names = true ->
  (forall key' names', In (key', names') after ->
     str_in (Check.name (h c)) names' = true -> key' = "SKIP") ->
  configure_items (before ++ (key, names) :: after) c h = (h', None) ->
  Check.importance (h' c) = lvl.
Proof.
  intros Hkey Hin Hafter. rewrite configure_items_app.
  pose proof (configure_items_name before c c h) as Hname.
  destruct (configure_items before c h) as [h1 [e|]]; [discriminate|].
  simpl in Hname. simpl. rewrite Hname, Hin.
  destruct (String.eqb_spec key "SKIP") as [->|_];
    [rewrite getitem_SKIP in Hkey; discriminate|].
  rewrite Hkey, configure_items_inert.
  - intros [= <-]. apply setattr_importance_same.
  - intros k n Hk. rewrite setattr_importance_name, Hname. now apply Hafter.
Qed.

(** [checks_out] receives every check of the input, skipped or not. *)
Lemma configure_loop_out (config : config_t) (checks acc out : list check_ref)
  (h h' : store) :
  configure_loop config checks acc h = (h', inr out) -> out = acc ++ checks.
Proof.
  revert acc h. induction checks as [|c checks IH]; intros acc h; simpl.
  - intros [= _ <-]. now rewrite app_nil_r.
  - destruct (configure_items config c h) as [h1 [e|]]; [discriminate|].
    intros H. apply IH in H. now rewrite <- app_assoc in H.
Qed.

Lemma configure_loop_name (config : config_t) (checks acc : list check_ref)
  (h : store) (r : check_ref) :
  Check.name (fst (configure_loop config checks acc h) r) = Check.name (h r).
Proof.
  revert acc h. induction checks as [|c checks IH]; intros acc h; simpl; [reflexivity|].
  pose proof (configure_items_name config c r h) as Hn.
  destruct (configure_items config c h) as [h1 [e|]]; simpl in *; [assumption|].
  now rewrite IH.
Qed.

Section LastKeyWins.
Variables (before after : config_t) (key : string) (names : list string).
Variables (lvl : Importance) (r : check_ref) (n : string).
Hypothesis Hkey : ImportanceEnum.getitem key = Some lvl.
Hypothesis Hlisted : str_in n names = true.
Hypothesis Hafter : forall key' names',
    In (key', names') after -> str_in n names' = true -> key' = "SKIP".

Local Abbreviation config := (before ++ (key, names) :: after).

(** One round of the outer loop keeps the importance of [r] at [lvl]
    once it is there, and puts it there when the round is for [r]. *)
Lemma configure_round (c : check_ref) (h h1 : store) :
  Check.name (h r) = n ->
  configure_items config c h = (h1, None) ->
  (c = r \/ Check.importance (h r) = lvl) ->
  Check.importance (h1 r) = lvl.
Proof.
  intros Hn Hstep Hcase.
  destruct (Nat.eq_dec c r) as [->|Hne].
  - apply (configure_items_last before after key names lvl r h h1); subst n; auto.
  - destruct Hcase as [Heq|Hlvl]; [contradiction|].
    pose proof (configure_items_frame config c r h (not_eq_sym Hne)) as Hf.
    rewrite Hstep in Hf. simpl in Hf. now rewrite Hf.
Qed.

Lemma configure_loop_keeps (checks acc out : list check_ref) (h h' : store) :
  Check.name (h r) = n ->
  Check.importance (h r) = lvl ->
  configure_loop config checks acc h = (h', inr out) ->
  Check.importance (h' r) = lvl.
Proof.
  revert acc h. induction checks as [|c checks IH]; intros acc h Hn Hlvl; simpl.
  - now intros [= <- _].
  - pose proof (configure_items_name config c r h) as Hname.
    destruct (configure_items config c h) as [h1 [e|]] eqn:Hstep; [discriminate|].
    simpl in Hname. apply IH; [congruence|].
    apply (configure_round c h h1); auto.
Qed.

Lemma configure_loop_sets (checks acc out : list check_ref) (h h' : store) :
  In r checks ->
  Check.name (h r) = n ->
  configure_loop config checks acc h = (h', inr out) ->
  Check.importance (h' r) = lvl.
Proof.
  revert acc h. induction checks as [|c checks IH]; intros acc h Hin Hn; simpl;
    [destruct Hin|].
  pose proof (configure_items_name config c r h) as Hname.
  destruct (configure_items config c h) as [h1 [e|]] eqn:Hstep; [discriminate|].
  simpl in Hname. destruct Hin as [->|Hin].
  - apply configure_loop_keeps; [congruence|].
    apply (configure_round r h h1); auto.
  - apply IH; [assumption | congruence].
Qed.

End LastKeyWins.

(** A config that does not list the name of [r] leaves [r] as it is,
    whether the call returns or raises. *)
Lemma configure_loop_unlisted (config : config_t) (checks acc : list check_ref)
  (h : store) (r : check_ref) :
  (forall key names, In (key, names) config ->
     str_in (Check.name (h r)) names = false) ->
  fst (configure_loop config checks acc h) r = h r.
Proof.
  revert acc h. induction checks as [|c checks IH]; intros acc h Hun; simpl;
    [reflexivity|].
  assert (Hstep : fst (configure_items config c h) r = h r).
  { destruct (Nat.eq_dec r c) as [->|Hne]; [|now apply configure_items_frame].
    rewrite configure_items_inert; [reflexivity|].
    intros k ns Hk Hin. rewrite (Hun k ns Hk) in Hin. discriminate. }
  destruct (configure_items config c h) as [h1 [e|]]; simpl in *; [assumption|].
  rewrite IH; [assumption|]. now rewrite Hstep.
Qed.

(* ------------------------------------------------------------------ *)
(** ** Claims on [configure_checks] *)

(** C1 (the code departs from it).  The claim: a check whose name is listed
    under "SKIP" is absent from the list [configure_checks] returns.  In the
    code [continue] only ends the round of the inner loop over the config,
    so the check is appended all the same: for the config
    [{"SKIP": ["check_a"]}] and the one-element list holding [check_a], the
    call returns that same one-element list. *)
Theorem configure_checks_skip_keeps_check :
  Check.name (SkipScenario.h 0) = "check_a" /\
  snd (configure_checks SkipScenario.config SkipScenario.checks SkipScenario.h)
  = inr [0].
Proof. split; reflexivity. Qed.

(** C9.  When the call returns, a check whose name the config lists under
    an importance key (the last such key, if several list it) has that
    importance in the store afterwards: the returned list holds the very
    same references as the input list, so the original list observes the
    new importance; and a later call with a config that does not mention
    the check still finds the importance the first call left. *)
Theorem configure_checks_mutates_shared_check
  (before after : config_t) (key : string) (names : list string)
  (lvl : Importance) (checks out : list check_ref) (h h' : store) (r : check_ref) :
  In r checks ->
  ImportanceEnum.getitem key = Some lvl ->
  str_in (Check.name (h r)) names = true ->
  (forall key' names', In (key', names') after ->
     str_in (Check.name (h r)) names' = true -> key' = "SKIP") ->
  configure_checks (before ++ (key, names) :: after) checks h = (h', inr out) ->
  out = checks /\
  Check.importance (h' r) = lvl /\
  forall config2 : config_t,
    (forall key2 names2, In (key2, names2) config2 ->
       str_in (Check.name (h r)) names2 = false) ->
    Check.importance (fst (configure_checks config2 checks h') r) = lvl.
Proof.
  intros Hin Hkey Hlisted Hafter Hrun. unfold configure_checks in *.
  assert (Hlvl : Check.importance (h' r) = lvl).
  { eapply configure_loop_sets; eauto. }
  split; [|split].
  - now apply configure_loop_out in Hrun.
  - exact Hlvl.
  - intros config2 Hun. rewrite configure_loop_unlisted; [exact Hlvl|].
    intros k ns Hk.
    pose proof (configure_loop_name (before ++ (key, names) :: after) checks [] h r) as Hn.
    rewrite Hrun in Hn. simpl in Hn. rewrite Hn. now apply (Hun k ns).
Qed.

Lemma configure_checks_mutates_shared_check_witness :
  Check.importance (ReconfigureScenario.h 0) = BEST_PRACTICE_SUGGESTION /\
  Check.importance
    (fst (configure_checks ReconfigureScenario.first_config
            ReconfigureScenario.checks ReconfigureScenario.h) 0) = CRITICAL /\
  Check.importance
    (fst (configure_checks ReconfigureScenario.second_config
            ReconfigureScenario.checks
            (fst (configure_checks ReconfigureScenario.first_config
                    ReconfigureScenario.checks ReconfigureScenario.h))) 0)
  = CRITICAL.
Proof.
  pose proof (configure_checks_mutates_shared_check
                [] [] "CRITICAL" ["check_a"] CRITICAL
                ReconfigureScenario.checks ReconfigureScenario.checks
                ReconfigureScenario.h
                (fst (configure_checks ReconfigureScenario.first_config
                        ReconfigureScenario.checks ReconfigureScenario.h))
                0) as H.
  destruct H as (_ & Hlvl & Hleft).
  - simpl; auto.
  - reflexivity.
  - reflexivity.
  - intros key' names' [].
  - reflexivity.
  - split; [reflexivity|]. split; [exact Hlvl|].
    apply (Hleft ReconfigureScenario.second_config).
    intros key2 names2 [[= <- <-]|[]]. reflexivity.
Defined.

(* ------------------------------------------------------------------ *)
(** ** Claims on [run_checks] *)

(** The run is the sequence of the pairs (check, object), check by check
    and, for each check, object by object. *)
Lemma run_checks_split (h : store) (nwbfile : NWBFile)
  (checks1 checks2 : list check_ref) (c : check_ref)
  (objs1 objs2 : list nwb_object) (o : nwb_object) :
  objects nwbfile = objs1 ++ o :: objs2 ->
  run_checks h nwbfile (checks1 ++ c :: checks2) =
    run_checks h nwbfile checks1 ;;
    Gen.for_each objs1 (run_check h c) ;;
    run_check h c o ;;
    Gen.for_each objs2 (run_check h c) ;;
    run_checks h nwbfile checks2.
Proof.
  intros Hobjs. unfold run_checks.
  rewrite for_each_app, for_each_cons, Hobjs, for_each_app, for_each_cons.
  now rewrite !seq_assoc.
Qed.

Lemma yield_output_items (output : pyval) :
  yield_output output = mkGen (map Yield (items_of output)) None.
Proof.
  destruct output as [|m|s|items]; simpl; try reflexivity.
  - now rewrite (for_each_yield _ (fun x => x)).
  - now rewrite (for_each_yield _ (fun x => x)).
Qed.

(** What one pair contributes when the check function returns. *)
Lemma run_check_returned (h : store) (c : check_ref) (o : nwb_object) (output : pyval) :
  issubclass_type o (Check.neurodata_type (h c)) = true ->
  Check.call (h c) o = Returned output ->
  run_check h c o = mkGen (Eff (Call c o) :: map Yield (items_of output)) None.
Proof.
  intros Hsub Hcall. unfold run_check. rewrite Hsub, Hcall, yield_output_items.
  reflexivity.
Qed.

(** C3 (as stated, fails).  A check that returns the string "ab" on a
    matched object makes [run_checks] yield the two items "a" and "b", not
    the single item "ab". *)
Lemma run_checks_iterates_bare_string :
  Check.call (BareStringScenario.h 0) time_series_object = Returned (PStr "ab") /\
  Gen.yielded (run_checks BareStringScenario.h BareStringScenario.nwbfile [0])
  = [PStr "a"; PStr "b"] /\
  Gen.yielded (run_checks BareStringScenario.h BareStringScenario.nwbfile [0])
  <> [PStr "ab"].
Proof. split; [reflexivity | split; [reflexivity | discriminate]]. Qed.

(** C3 (amended).  For a pair whose check function returns [output],
    [run_checks] calls the function once and yields: nothing for [None];
    the elements of a sequence, in order; the output itself for a message;
    and, a string being iterable like any sequence, the one-character
    strings of a bare string, in order.  The pairs before and after are
    evaluated as without it. *)
Theorem run_checks_normalizes_output
  (h : store) (nwbfile : NWBFile) (checks1 checks2 : list check_ref)
  (c : check_ref) (objs1 objs2 : list nwb_object) (o : nwb_object)
  (output : pyval) :
  objects nwbfile = objs1 ++ o :: objs2 ->
  issubclass_type o (Check.neurodata_type (h c)) = true ->
  Check.call (h c) o = Returned output ->
  let items :=
    match output with
    | PNone => []
    | PMessage m => [PMessage m]
    | PList elements => elements
    | PStr s => map (fun ch => PStr (String ch EmptyString)) (list_ascii_of_string s)
    end in
  Gen.yielded (run_check h c o) = items /\
  raised (run_check h c o) = None /\
  run_checks h nwbfile (checks1 ++ c :: checks2) =
    run_checks h nwbfile checks1 ;;
    Gen.for_each objs1 (run_check h c) ;;
    mkGen (Eff (Call c o) :: map Yield items) None ;;
    Gen.for_each objs2 (run_check h c) ;;
    run_checks h nwbfile checks2.
Proof.
  intros Hobjs Hsub Hcall items.
  pose proof (run_check_returned h c o output Hsub Hcall) as Hpair.
  assert (Hitems : items_of output = items) by (destruct output; reflexivity).
  rewrite Hitems in Hpair.
  split; [|split].
  - rewrite Hpair. unfold Gen.yielded; simpl.
    clear. induction items as [|x items IH]; simpl; [reflexivity | now rewrite IH].
  - now rewrite Hpair.
  - rewrite (run_checks_split h nwbfile checks1 checks2 c objs1 objs2 o Hobjs).
    now rewrite Hpair.
Qed.

Lemma run_checks_normalizes_output_witness :
  Gen.yielded (run_check BareStringScenario.h 0 time_series_object)
  = [PStr "a"; PStr "b"] /\
  raised (run_check BareStringScenario.h 0 time_series_object) = None.
Proof.
  destruct (run_checks_normalizes_output
              BareStringScenario.h BareStringScenario.nwbfile [] [] 0 [] []
              time_series_object (PStr "ab") eq_refl eq_refl eq_refl)
    as (Hy & Hr & _).
  split; [exact Hy | exact Hr].
Defined.



(* ------------------------------------------------------------------ *)
(** ** Exceptions that can leave [inspect_nwb] *)

Section RaisedBy.
Context {Y : Type}.
Variable P : exn -> Prop.

Lemma raised_for_each {A} (l : list A) (body : A -> gen Y) :
  (forall x e, raised (body x) = Some e -> P e) ->
  forall e, raised (Gen.for_each l body) = Some e -> P e.
Proof.
  intros Hbody. induction l as [|x l IH]; intros e; [discriminate|].
  rewrite for_each_cons, raised_seq.
  destruct (raised (body x)) as [e'|] eqn:Hx.
  - intros [= <-]. eauto.
  - apply IH.
Qed.

Lemma raised_consume {A} (evs : list (event A)) (ending : option exn)
  (body : A -> gen Y) :
  (forall e, ending = Some e -> P e) ->
  (forall a e, raised (body a) = Some e -> P e) ->
  forall e, raised (Gen.consume evs ending body) = Some e -> P e.
Proof.
  intros Hend Hbody. induction evs as [|[eff|a] evs IH]; intros e;
    cbn [Gen.consume].
  - apply Hend.
  - rewrite raised_seq. simpl. apply IH.
  - rewrite raised_seq. destruct (raised (body a)) as [e'|] eqn:Ha.
    + intros [= <-]. eauto.
    + apply IH.
Qed.

End RaisedBy.

Lemma raised_run_check (h : store) (c : check_ref) (o : nwb_object) (e : exn) :
  raised (run_check h c o) = Some e -> passes_through e.
Proof.
  unfold run_check.
  destruct (issubclass_type o _); [|discriminate].
  rewrite raised_seq. simpl.
  destruct (Check.call (h c) o) as [output|e'].
  - rewrite yield_output_items. discriminate.
  - destruct (isinstance_Exception e'); [discriminate|].
    intros [= <-]. exact I.
Qed.

Lemma raised_run_checks (h : store) (nwbfile : NWBFile) (checks : list check_ref)
  (e : exn) :
  raised (run_checks h nwbfile checks) = Some e -> passes_through e.
Proof.
  unfold run_checks. apply raised_for_each. intros c.
  apply raised_for_each. intros o. apply raised_run_check.
Qed.

Lemma raised_stamp_and_yield (path : string) (v : pyval) (e : exn) :
  raised (stamp_and_yield path v) = Some e -> passes_through e.
Proof. destruct v; simpl; try discriminate; intros [= <-]; exact I. Qed.

Lemma raised_inspect_read (h : store) (nwbfile : option NWBFile) (path : string)
  (checks : list check_ref) (thr : Importance) (ignore select : option (list string))
  (e : exn) :
  raised (inspect_read h nwbfile path checks thr ignore select) = Some e ->
  passes_through e.
Proof.
  unfold inspect_read. destruct nwbfile as [nwbfile|].
  - unfold Gen.for_in. apply raised_consume.
    + apply raised_run_checks.
    + intros a. apply raised_stamp_and_yield.
  - intros [= <-]. exact I.
Qed.

Lemma raised_inspect_opened (h : store) (io : NWBHDF5IO) (path : string)
  (checks : list check_ref) (thr : Importance) (ignore select : option (list string))
  (e : exn) :
  raised (inspect_opened h io path checks thr ignore select) = Some e ->
  passes_through e.
Proof.
  unfold inspect_opened.
  destruct (io_validate io) as [e'|validation_errors]; [intros [= <-]; exact I|].
  rewrite raised_seq, for_each_yield. cbn [raised].
  destruct (io_read io) as [ex|nwbfile]; [|apply raised_inspect_read].
  destruct (isinstance_Exception ex); [|intros [= <-]; exact I].
  rewrite raised_seq. cbn [raised Gen.yield]. apply raised_inspect_read.
Qed.

(** When the guard of line 257 lets the call through, no [ValueError] of
    the module leaves it. *)
Lemma raised_inspect_nwb (h : store) (w : world) (path : string)
  (checks : list check_ref) (thr : Importance) (ignore select : option (list string))
  (e : exn) :
  is_not_None ignore && is_not_None select = false ->
  raised (inspect_nwb h w path checks thr ignore select) = Some e ->
  passes_through e.
Proof.
  intros Hguard. unfold inspect_nwb. rewrite Hguard, raised_seq.
  cbn [raised Gen.perform].
  destruct (w path) as [e'|io]; [intros [= <-]; exact I|].
  apply raised_inspect_opened.
Qed.

(* ------------------------------------------------------------------ *)
(** ** The checks [inspect_nwb] runs *)

Lemma filter_swap {A} (f g : A -> bool) (l : list A) :
  filter f (filter g l) = filter g (filter f l).
Proof.
  induction l as [|x l IH]; simpl; [reflexivity|].
  destruct (f x) eqn:Hf, (g x) eqn:Hg; simpl; rewrite ?Hf, ?Hg, IH; reflexivity.
Qed.

Lemma filter_all {A} (f : A -> bool) (l : list A) :
  (forall x, f x = true) -> filter f l = l.
Proof.
  intros Hf. induction l as [|x l IH]; simpl; [reflexivity|].
  now rewrite Hf, IH.
Qed.

Lemma lowest_threshold (i : Importance) :
  (ImportanceEnum.value i >=? ImportanceEnum.value BEST_PRACTICE_SUGGESTION)%Z = true.
Proof. destruct i; reflexivity. Qed.

(** The threshold acts on the list of checks, by the importance of each
    check, and commutes with [select] and [ignore]. *)
Lemma filter_checks_threshold (h : store) (checks : list check_ref)
  (thr : Importance) (ignore select : option (list string)) :
  filter_checks h checks thr ignore select =
  filter_checks h
    (filter (fun x => (ImportanceEnum.value (Check.importance (h x))
                       >=? ImportanceEnum.value thr)%Z) checks)
    BEST_PRACTICE_SUGGESTION ignore select.
Proof.
  unfold filter_checks, importance_truthy.
  rewrite (filter_all (fun x => (ImportanceEnum.value (Check.importance (h x))
                                 >=? ImportanceEnum.value BEST_PRACTICE_SUGGESTION)%Z));
    [|intros x; apply lowest_threshold].
  destruct (truthy select); [apply filter_swap|].
  destruct (truthy ignore); [apply filter_swap|reflexivity].
Qed.

(** A check is handed to [run_checks] exactly when [select] and [ignore]
    let it through and its own importance is not below the threshold. *)
Lemma filter_checks_In (h : store) (checks : list check_ref)
  (thr : Importance) (ignore select : option (list string)) (c : check_ref) :
  In c (filter_checks h checks thr ignore select) <->
  In c (filter_checks h checks BEST_PRACTICE_SUGGESTION ignore select) /\
  (ImportanceEnum.value (Check.importance (h c)) >= ImportanceEnum.value thr)%Z.
Proof.
  unfold filter_checks, importance_truthy.
  rewrite (filter_all (fun x => (ImportanceEnum.value (Check.importance (h x))
                                 >=? ImportanceEnum.value BEST_PRACTICE_SUGGESTION)%Z));
    [|intros x; apply lowest_threshold].
  rewrite filter_In, Z.geb_le, Z.ge_le_iff. reflexivity.
Qed.

Lemma in_yielded_seq_l {Y} (g1 g2 : gen Y) (y : Y) :
  In y (Gen.yielded g1) -> In y (Gen.yielded (g1 ;; g2)).
Proof.
  intros Hin. unfold Gen.seq. destruct (raised g1); [assumption|].
  unfold Gen.yielded in *; simpl. rewrite flat_map_app.
  apply in_or_app. now left.
Qed.

Lemma in_yielded_seq_r {Y} (g1 g2 : gen Y) (y : Y) :
  raised g1 = None -> In y (Gen.yielded g2) -> In y (Gen.yielded (g1 ;; g2)).
Proof.
  intros Hr Hin. rewrite yielded_seq by assumption.
  apply in_or_app. now right.
Qed.

Lemma yielded_yields {A Y} (f : A -> Y) (l : list A) (ending : option exn) :
  Gen.yielded (mkGen (map (fun x => Yield (f x)) l) ending) = map f l.
Proof.
  unfold Gen.yielded; simpl.
  induction l as [|x l IH]; simpl; [reflexivity | now rewrite IH].
Qed.

(** Every message that reaches the consumer through the loop of lines
    284-286 carries the path of the file. *)
Lemma consume_stamps (path : string) (evs : list (event pyval))
  (ending : option exn) (m : InspectorMessage) :
  In m (Gen.yielded (Gen.consume evs ending (stamp_and_yield path))) ->
  file m = Some path.
Proof.
  induction evs as [|[eff|v] evs IH]; cbn [Gen.consume].
  - intros [].
  - rewrite yielded_seq by reflexivity. simpl. exact IH.
  - destruct v as [|m'|s|items]; cbn [stamp_and_yield];
      rewrite ?seq_raise_l; [intros [] | | intros [] | intros []].
    rewrite yielded_seq by reflexivity.
    intros [<-|Hin]; [reflexivity | now apply IH].
Qed.

(* ------------------------------------------------------------------ *)
(** ** Claims on [inspect_nwb] and [inspect_all] *)

(** C8.  With both [ignore] and [select] given, empty or not, the run of
    [inspect_nwb] is the usage error and nothing else: its trace is empty,
    so no file is opened, no check function called and nothing yielded.
    With one of them absent, the exception that leaves [inspect_nwb], if
    any, is not that error. *)
Theorem inspect_nwb_ignore_select_exclusive
  (h : store) (w : world) (path : string) (checks : list check_ref)
  (thr : Importance) :
  (forall ignore select : list string,
     inspect_nwb h w path checks thr (Some ignore) (Some select)
     = mkGen [] (Some usage_error)) /\
  (forall select : option (list string),
     raised (inspect_nwb h w path checks thr None select) <> Some usage_error) /\
  (forall ignore : option (list string),
     raised (inspect_nwb h w path checks thr ignore None) <> Some usage_error).
Proof.
  split; [reflexivity|]. split.
  - intros select Hr. apply raised_inspect_nwb in Hr; [exact Hr | reflexivity].
  - intros ignore Hr. apply raised_inspect_nwb in Hr; [exact Hr|].
    apply andb_false_r.
Qed.

(** With [select] the empty list and no [ignore], the checks handed to
    [run_checks] are all those that pass the threshold, and the whole run
    is the run without [select]. *)
Lemma inspect_nwb_empty_select_same_run
  (h : store) (w : world) (path : string) (checks : list check_ref)
  (thr : Importance) :
  filter_checks h checks thr None (Some []) =
    filter (fun x => (ImportanceEnum.value (Check.importance (h x))
                      >=? ImportanceEnum.value thr)%Z) checks /\
  inspect_nwb h w path checks thr None (Some []) =
    inspect_nwb h w path checks thr None None.
Proof. split; reflexivity. Qed.

Example threshold_lowest_run :
  Gen.yielded (inspect_nwb ThresholdScenario.h ThresholdScenario.w "f.nwb"
                 ThresholdScenario.checks BEST_PRACTICE_SUGGESTION None None)
  = [set_file ThresholdScenario.suggestion "f.nwb";
     set_file (check_error_message "check_boom" RaisingScenario.zero_division) "f.nwb"].
Proof. reflexivity. Qed.

Example threshold_critical_run :
  Gen.yielded (inspect_nwb ThresholdScenario.h ThresholdScenario.w "f.nwb"
                 ThresholdScenario.checks CRITICAL None None)
  = [set_file ThresholdScenario.suggestion "f.nwb"].
Proof. reflexivity. Qed.

(** C5 (as stated, fails).  Of the messages that arise for a file (those of
    the run with the lowest threshold), it is not so that the ones absent
    under threshold CRITICAL are exactly those whose importance is below
    CRITICAL and not administrative: the message of a CRITICAL check that
    carries importance BEST_PRACTICE_SUGGESTION is present. *)
Lemma threshold_compares_checks_not_messages :
  ~ (forall m : InspectorMessage,
       In m (Gen.yielded (inspect_nwb ThresholdScenario.h ThresholdScenario.w "f.nwb"
                            ThresholdScenario.checks BEST_PRACTICE_SUGGESTION None None)) ->
       (~ In m (Gen.yielded (inspect_nwb ThresholdScenario.h ThresholdScenario.w "f.nwb"
                               ThresholdScenario.checks CRITICAL None None))
        <->
        exists lvl : Importance,
          importance m = Some lvl /\
          (ImportanceEnum.value lvl < ImportanceEnum.value CRITICAL)%Z /\
          ImportanceEnum.administrative lvl = false)).
Proof.
  intros Hclaim.
  destruct (Hclaim (set_file ThresholdScenario.suggestion "f.nwb")) as [_ Habsent].
  - rewrite threshold_lowest_run. now left.
  - apply Habsent.
    + exists BEST_PRACTICE_SUGGESTION. repeat split.
    + rewrite threshold_critical_run. now left.
Qed.

(** Under the same threshold the ERROR message of a
    BEST_PRACTICE_VIOLATION check that raises does not arise at all: the
    check is not run. *)
Example threshold_drops_error_of_low_check :
  let crash := set_file (check_error_message "check_boom" RaisingScenario.zero_division) "f.nwb" in
  importance crash = Some ERROR /\
  In crash (Gen.yielded (inspect_nwb ThresholdScenario.h ThresholdScenario.w "f.nwb"
                           ThresholdScenario.checks BEST_PRACTICE_SUGGESTION None None)) /\
  ~ In crash (Gen.yielded (inspect_nwb ThresholdScenario.h ThresholdScenario.w "f.nwb"
                             ThresholdScenario.checks CRITICAL None None)).
Proof.
  split; [reflexivity|]. split.
  - rewrite threshold_lowest_run. right. now left.
  - rewrite threshold_critical_run. intros [H|[]]. discriminate H.
Qed.

(** The threshold acts on the list of checks; validation messages and the
    message of a failed read are yielded under every threshold. *)
Lemma inspect_nwb_threshold_facts
  (h : store) (w : world) (path : string) (checks : list check_ref)
  (thr : Importance) (ignore select : option (list string))
  (io : NWBHDF5IO) (validation_errors : list ValidationError) :
  is_not_None ignore && is_not_None select = false ->
  w path = inr io ->
  io_validate io = inr validation_errors ->
  (forall c : check_ref,
     In c (filter_checks h checks thr ignore select) <->
     In c (filter_checks h checks BEST_PRACTICE_SUGGESTION ignore select) /\
     (ImportanceEnum.value (Check.importance (h c)) >= ImportanceEnum.value thr)%Z) /\
  inspect_nwb h w path checks thr ignore select =
    inspect_nwb h w path
      (filter (fun x => (ImportanceEnum.value (Check.importance (h x))
                         >=? ImportanceEnum.value thr)%Z) checks)
      BEST_PRACTICE_SUGGESTION ignore select /\
  (forall v, In v validation_errors ->
     In (validation_message v)
        (Gen.yielded (inspect_nwb h w path checks thr ignore select))) /\
  (forall ex, io_read io = inl ex -> isinstance_Exception ex = true ->
     In (read_error_message ex)
        (Gen.yielded (inspect_nwb h w path checks thr ignore select))).
Proof.
  intros Hguard Hw Hval. split; [|split; [|split]].
  - intros c. apply filter_checks_In.
  - unfold inspect_nwb, inspect_opened, inspect_read.
    now rewrite filter_checks_threshold.
  - intros v Hv. unfold inspect_nwb. rewrite Hguard, Hw.
    apply in_yielded_seq_r; [reflexivity|]. rewrite yielded_closing.
    unfold inspect_opened. rewrite Hval. apply in_yielded_seq_l.
    rewrite for_each_yield, yielded_yields. now apply in_map.
  - intros ex Hread Hexc. unfold inspect_nwb. rewrite Hguard, Hw.
    apply in_yielded_seq_r; [reflexivity|]. rewrite yielded_closing.
    unfold inspect_opened. rewrite Hval, Hread, Hexc.
    apply in_yielded_seq_r; [now rewrite for_each_yield|].
    apply in_yielded_seq_l. simpl. now left.
Qed.

(** C7 (the code departs from it).  The claim: every message [inspect_nwb]
    yields for a file carries the path of the file.  Only the messages that
    come out of [run_checks] are stamped: for a file with one validation
    error and one finding, the PYNWB_VALIDATION message is yielded with
    [file] unset; for a file whose read fails, so is the ERROR message. *)
Theorem inspect_nwb_stamps_only_check_messages :
  map (fun m => (importance m, file m))
      (Gen.yielded (inspect_nwb ValidationScenario.h ValidationScenario.w "v.nwb"
                      ValidationScenario.checks BEST_PRACTICE_SUGGESTION None None))
  = [(Some PYNWB_VALIDATION, None); (Some CRITICAL, Some "v.nwb")] /\
  map (fun m => (importance m, file m))
      (Gen.yielded (inspect_nwb ValidationScenario.h ValidationScenario.w "w.nwb"
                      ValidationScenario.checks BEST_PRACTICE_SUGGESTION None None))
  = [(Some PYNWB_VALIDATION, None); (Some ERROR, None)].
Proof. split; reflexivity. Qed.

(** C2 (the code departs from it).  The claim: a file whose read raises
    gives one ERROR message, no check is run for it, and the batch goes on.
    After yielding the message the code falls through to
    [run_checks(nwbfile, ...)] with [nwbfile] unbound: for a directory of
    two files of which the first cannot be read, [inspect_all] yields the
    ERROR message, calls no check, and is left by an [UnboundLocalError];
    the second file is never opened. *)
Theorem inspect_all_read_failure_aborts_batch :
  let run :=
    snd (inspect_all BatchScenario.fs BatchScenario.w BatchScenario.available_checks
           "session" None None None BEST_PRACTICE_SUGGESTION BatchScenario.h) in
  Gen.yielded run = [read_error_message BatchScenario.corrupt] /\
  Gen.calls run = [] /\
  raised run = Some (UnboundLocalError "nwbfile") /\
  Gen.effects run = [Open "a.nwb"; Close "a.nwb"] /\
  Gen.opened run = ["a.nwb"].
Proof. repeat split. Qed.

(* ------------------------------------------------------------------ *)
(** ** Claims on [format_organized_results_output] *)

(** The test of line 48 holds for string keys only, and a string key has
    already failed at line 44: whenever a bucket is rendered, its entries
    are laid out by lines 56-60. *)
Lemma format_bucket_normal (nwbfile_index importance_index : nat)
  (importance_level : bucket_key) (check_results : list InspectorMessage)
  (lines : list string) :
  format_bucket nwbfile_index importance_index importance_level check_results
  = inr lines ->
  exists level : Importance,
    importance_level = KeyMember level /\
    lines =
      (let importance_string :=
         replace_char "_"%char " "%char (ImportanceEnum.name level) in
       [newline +s+ importance_string +s+ newline;
        str_repeat "-" (String.length importance_string) +s+ newline]
       ++ map (fun '(check_index, check_result) =>
                 normal_entry nwbfile_index importance_index check_index check_result)
              (enumerate 1 check_results)).
Proof.
  destruct importance_level as [level|name]; [|discriminate].
  intros [= <-]. exists level. split; reflexivity.
Qed.

(** C6 (the code departs from it).  The claim: an ERROR or PYNWB_VALIDATION
    bucket is rendered with the one-line administrative template.  The
    buckets are keyed by [Importance] members, which never equal the
    strings "ERROR" and "PYNWB_VALIDATION" of the test, so the ERROR bucket
    of this report is rendered with the two-line template of the other
    buckets, numbered 1.1.1, and not with the administrative one. *)
Theorem format_renders_error_bucket_as_normal :
  format_organized_results_output ReportScenario.organized_results =
    inr ["NWBFile: a.nwb" +s+ newline;
         "==============" +s+ newline;
         newline +s+ "ERROR" +s+ newline;
         "-----" +s+ newline;
         "1.1.1   None 'None' located in 'None'" +s+ newline
         +s+ "        check_boom: "
         +s+ "Traceback (most recent call last): ZeroDivisionError: division by zero"
         +s+ newline] /\
  administrative_entry 1 1 1 ReportScenario.crash =
    "1.1.1   None 'None': check_boom: "
    +s+ "Traceback (most recent call last): ZeroDivisionError: division by zero"
    +s+ newline.
Proof. split; reflexivity. Qed.


(* ================================================================== *)
(** * Further properties of the code *)

(* ------------------------------------------------------------------ *)
(** ** [configure_checks]: what it returns, changes and raises *)

Lemma setattr_importance_attrs (h : store) (r r' : check_ref) (lvl : Importance) :
  Check.neurodata_type (setattr_importance h r lvl r') = Check.neurodata_type (h r') /\
  Check.call (setattr_importance h r lvl r') = Check.call (h r').
Proof.
  unfold setattr_importance.
  destruct (Nat.eqb_spec r' r) as [->|]; split; reflexivity.
Qed.

Lemma configure_items_attrs (items : config_t) (c r : check_ref) (h : store) :
  Check.neurodata_type (fst (configure_items items c h) r) = Check.neurodata_type (h r) /\
  Check.call (fst (configure_items items c h) r) = Check.call (h r).
Proof.
  revert h.
  induction items as [|[key names] items IH]; intros h; simpl; [now split|].
  destruct (str_in _ names); [|apply IH].
  destruct (String.eqb key "SKIP"); [apply IH|].
  destruct (ImportanceEnum.getitem key) as [lvl|]; [|now split].
  destruct (IH (setattr_importance h c lvl)) as [H1 H2].
  destruct (setattr_importance_attrs h c r lvl) as [H3 H4].
  split; congruence.
Qed.

Lemma configure_loop_attrs (config : config_t) (checks acc : list check_ref)
  (h : store) (r : check_ref) :
  Check.neurodata_type (fst (configure_loop config checks acc h) r)
  = Check.neurodata_type (h r) /\
  Check.call (fst (configure_loop config checks acc h) r) = Check.call (h r).
Proof.
  revert acc h. induction checks as [|c checks IH]; intros acc h; simpl; [now split|].
  pose proof (configure_items_attrs config c r h) as [H1 H2].
  destruct (configure_items config c h) as [h1 [e|]]; simpl in *; [now split|].
  destruct (IH (acc ++ [c]) h1) as [H3 H4]. split; congruence.
Qed.

Lemma configure_loop_untouched (config : config_t) (checks acc : list check_ref)
  (h : store) (r : check_ref) :
  ~ In r checks -> fst (configure_loop config checks acc h) r = h r.
Proof.
  revert acc h. induction checks as [|c checks IH]; intros acc h Hnot; simpl;
    [reflexivity|].
  assert (Hne : r <> c) by (intros ->; apply Hnot; now left).
  pose proof (configure_items_frame config c r h Hne) as Hf.
  destruct (configure_items config c h) as [h1 [e|]]; simpl in *; [assumption|].
  rewrite IH; [assumption|]. intros Hin. apply Hnot. now right.
Qed.

Lemma configure_loop_inert (config : config_t) (checks acc : list check_ref)
  (h : store) :
  (forall c key names, In c checks -> In (key, names) config ->
     str_in (Check.name (h c)) names = true -> key = "SKIP") ->
  configure_loop config checks acc h = (h, inr (acc ++ checks)).
Proof.
  revert acc. induction checks as [|c checks IH]; intros acc Hskip; simpl.
  - now rewrite app_nil_r.
  - rewrite configure_items_inert.
    + rewrite IH; [now rewrite <- app_assoc|].
      intros c' key names Hc. apply Hskip. now right.
    + intros key names. apply Hskip. now left.
Qed.

(** X1.  Whenever [configure_checks] returns, it returns the list it was
    given: the same references in the same order, whatever the config
    says. *)
Theorem configure_checks_returns_input
  (config : config_t) (checks out : list check_ref) (h h' : store) :
  configure_checks config checks h = (h', inr out) -> out = checks.
Proof. unfold configure_checks. intros H. now apply configure_loop_out in H. Qed.

Lemma configure_checks_returns_input_witness :
  [0] = ReconfigureScenario.checks.
Proof.
  apply (configure_checks_returns_input ReconfigureScenario.first_config
           ReconfigureScenario.checks [0] ReconfigureScenario.h
           (fst (configure_checks ReconfigureScenario.first_config
                   ReconfigureScenario.checks ReconfigureScenario.h))).
  reflexivity.
Defined.

(** X2.  A config in which the names of the given checks appear under no
    key, or under "SKIP" only, changes nothing and raises nothing, even if
    its other keys are not names of importance levels: the store and the
    list come back as they were. *)
Theorem configure_checks_inert
  (config : config_t) (checks : list check_ref) (h : store) :
  (forall c key names, In c checks -> In (key, names) config ->
     str_in (Check.name (h c)) names = true -> key = "SKIP") ->
  configure_checks config checks h = (h, inr checks).
Proof. intros Hskip. now apply (configure_loop_inert config checks [] h). Qed.

Lemma configure_checks_inert_witness :
  configure_checks [("SKIP", ["check_a"]); ("NOT_A_LEVEL", ["check_z"])]
    SkipScenario.checks SkipScenario.h
  = (SkipScenario.h, inr SkipScenario.checks).
Proof.
  apply configure_checks_inert.
  intros c key names [<-|[]] [[= <- <-]|[[= <- <-]|[]]] Hin.
  - reflexivity.
  - discriminate Hin.
Defined.

(** The only exception the inner loop raises is the [KeyError] of a key
    that is neither "SKIP" nor the name of a level. *)
Lemma configure_items_error (items : config_t) (c : check_ref) (h : store) (e : exn) :
  snd (configure_items items c h) = Some e ->
  exists key names,
    In (key, names) items /\ e = KeyError key /\
    ImportanceEnum.getitem key = None /\ key <> "SKIP".
Proof.
  revert h.
  induction items as [|[key names] items IH]; intros h; simpl; [discriminate|].
  assert (Hrest : forall h0, snd (configure_items items c h0) = Some e ->
            exists key0 names0, (((key, names) = (key0, names0)) \/ In (key0, names0) items) /\
              e = KeyError key0 /\ ImportanceEnum.getitem key0 = None /\ key0 <> "SKIP").
  { intros h0 H0. destruct (IH h0 H0) as (k & ns & Hin & Hrest). exists k, ns. auto. }
  destruct (str_in _ names); [|apply Hrest].
  destruct (String.eqb_spec key "SKIP") as [->|Hne]; [apply Hrest|].
  destruct (ImportanceEnum.getitem key) as [lvl|] eqn:Hkey; [apply Hrest|].
  simpl. intros [= <-]. exists key, names. auto.
Qed.

(** An entry that lists the check under such a key makes the inner loop
    raise, at that entry or before. *)
Lemma configure_items_hits (items : config_t) (c : check_ref) (h : store)
  (key : string) (names : list string) :
  In (key, names) items ->
  str_in (Check.name (h c)) names = true ->
  ImportanceEnum.getitem key = None -> key <> "SKIP" ->
  snd (configure_items items c h) <> None.
Proof.
  intros Hin Hlisted Hkey Hne. revert h Hlisted.
  induction items as [|[k ns] items IH]; intros h Hlisted; [destruct Hin|].
  simpl. destruct Hin as [[= -> ->]|Hin].
  - rewrite Hlisted. destruct (String.eqb_spec key "SKIP"); [contradiction|].
    rewrite Hkey. discriminate.
  - destruct (str_in _ ns); [|now apply IH].
    destruct (String.eqb k "SKIP"); [now apply IH|].
    destruct (ImportanceEnum.getitem k) as [lvl|]; [|discriminate].
    apply IH; [assumption|]. now rewrite setattr_importance_name.
Qed.

(** X3.  If the config lists the name of one of the given checks under a
    key that is neither "SKIP" nor the name of an importance level,
    [configure_checks] raises a [KeyError] for a key of the config that is
    not a level. *)
Theorem configure_checks_unknown_level_raises
  (config : config_t) (checks : list check_ref) (h : store)
  (c : check_ref) (key : string) (names : list string) :
  In c checks ->
  In (key, names) config ->
  str_in (Check.name (h c)) names = true ->
  ImportanceEnum.getitem key = None -> key <> "SKIP" ->
  exists bad names',
    In (bad, names') config /\
    snd (configure_checks config checks h) = inl (KeyError bad) /\
    ImportanceEnum.getitem bad = None /\ bad <> "SKIP".
Proof.
  intros Hc Hin Hlisted Hkey Hne. unfold configure_checks.
  generalize (@nil check_ref) as acc. revert h Hlisted.
  induction checks as [|c0 checks IH]; intros h Hlisted acc; [destruct Hc|].
  simpl.
  pose proof (configure_items_error config c0 h) as Herr.
  pose proof (configure_items_name config c0 c h) as Hname.
  destruct (configure_items config c0 h) as [h1 [e|]] eqn:Hstep; simpl in *.
  - destruct (Herr e eq_refl) as (bad & ns & Hbad & -> & Hnone & Hskip).
    exists bad, ns. auto.
  - destruct Hc as [->|Hc].
    + exfalso.
      apply (configure_items_hits config c h key names Hin Hlisted Hkey Hne).
      now rewrite Hstep.
    + apply IH; [assumption|]. now rewrite Hname.
Qed.

Lemma configure_checks_unknown_level_raises_witness :
  exists bad names',
    In (bad, names') [("CRITICAL_IMPORTANCE", ["check_a"])] /\
    snd (configure_checks [("CRITICAL_IMPORTANCE", ["check_a"])]
           SkipScenario.checks SkipScenario.h) = inl (KeyError bad) /\
    ImportanceEnum.getitem bad = None /\ bad <> "SKIP".
Proof.
  apply (configure_checks_unknown_level_raises
           [("CRITICAL_IMPORTANCE", ["check_a"])] SkipScenario.checks SkipScenario.h
           0 "CRITICAL_IMPORTANCE" ["check_a"]).
  - now left.
  - now left.
  - reflexivity.
  - reflexivity.
  - discriminate.
Defined.

Lemma configure_items_valid (items : config_t) (c : check_ref) (h : store) :
  (forall key names, In (key, names) items ->
     key = "SKIP" \/ ImportanceEnum.getitem key <> None) ->
  snd (configure_items items c h) = None.
Proof.
  intros Hvalid.
  destruct (snd (configure_items items c h)) as [e|] eqn:He; [|reflexivity].
  destruct (configure_items_error items c h e He) as (key & names & Hin & _ & Hnone & Hne).
  destruct (Hvalid key names Hin); contradiction.
Qed.

(** X4.  If every key of the config is "SKIP" or the name of an importance
    level, [configure_checks] returns: it raises nothing, whatever names of
    checks the config lists. *)
Theorem configure_checks_valid_keys_return
  (config : config_t) (checks : list check_ref) (h : store) :
  (forall key names, In (key, names) config ->
     key = "SKIP" \/ ImportanceEnum.getitem key <> None) ->
  snd (configure_checks config checks h) = inr checks.
Proof.
  intros Hvalid. unfold configure_checks.
  change checks with ([] ++ checks) at 2.
  generalize (@nil check_ref) as acc. revert h.
  induction checks as [|c checks IH]; intros h acc; simpl.
  - now rewrite app_nil_r.
  - pose proof (configure_items_valid config c h Hvalid) as Hok.
    destruct (configure_items config c h) as [h1 [e|]]; simpl in Hok; [discriminate|].
    rewrite IH. now rewrite <- app_assoc.
Qed.

Lemma configure_checks_valid_keys_return_witness :
  snd (configure_checks ReconfigureScenario.first_config
         ReconfigureScenario.checks ReconfigureScenario.h)
  = inr ReconfigureScenario.checks.
Proof.
  apply configure_checks_valid_keys_return.
  intros key names [[= <- <-]|[]]. right. discriminate.
Defined.

(** X5.  [configure_checks] writes to the importance of the given checks
    and to nothing else: for every reference the name, the neurodata type
    and the callable are as before, and a check that is not in the list is
    left wholly as it was; this holds also when the call raises. *)
Theorem configure_checks_changes_importance_only
  (config : config_t) (checks : list check_ref) (h : store) (r : check_ref) :
  Check.name (fst (configure_checks config checks h) r) = Check.name (h r) /\
  Check.neurodata_type (fst (configure_checks config checks h) r)
  = Check.neurodata_type (h r) /\
  Check.call (fst (configure_checks config checks h) r) = Check.call (h r) /\
  (~ In r checks -> fst (configure_checks config checks h) r = h r).
Proof.
  unfold configure_checks.
  destruct (configure_loop_attrs config checks [] h r) as [Ht Hc].
  repeat split; auto.
  - apply configure_loop_name.
  - apply configure_loop_untouched.
Qed.

Lemma configure_checks_changes_importance_only_witness :
  fst (configure_checks ReconfigureScenario.first_config
         ReconfigureScenario.checks ReconfigureScenario.h) 7
  = ReconfigureScenario.h 7.
Proof.
  apply (configure_checks_changes_importance_only
           ReconfigureScenario.first_config ReconfigureScenario.checks
           ReconfigureScenario.h 7).
  intros [H|[]]. discriminate H.
Defined.

(* ------------------------------------------------------------------ *)
(** ** [run_checks]: which calls are made, what is yielded, what escapes *)

(** A loop whose rounds raise nothing is the concatenation of the rounds. *)
Lemma for_each_quiet {A Y} (l : list A) (body : A -> gen Y)
  (events : A -> list (event Y)) :
  (forall x, In x l -> body x = mkGen (events x) None) ->
  Gen.for_each l body = mkGen (flat_map events l) None.
Proof.
  induction l as [|x l IH]; intros Hbody; [reflexivity|].
  rewrite for_each_cons, (Hbody x (or_introl eq_refl)), IH.
  - reflexivity.
  - intros y Hy. apply Hbody. now right.
Qed.

Lemma run_check_quiet (h : store) (c : check_ref) (o : nwb_object) :
  (forall e, applies_to h c o = true -> Check.call (h c) o = Raised e ->
     isinstance_Exception e = true) ->
  run_check h c o = mkGen (pair_events h c o) None.
Proof.
  intros Hexc. unfold run_check, pair_events, pair_items, applies_to in *.
  destruct (issubclass_type o _); [|reflexivity].
  destruct (Check.call (h c) o) as [output|e].
  - now rewrite yield_output_items.
  - now rewrite (Hexc e eq_refl eq_refl).
Qed.

(** X6.  If none of the checks raises, on an object it applies to,
    something that is not an [Exception], [run_checks] raises nothing and
    its run is, check by check and object by object in the order of
    [nwbfile.objects], one call for each pair whose object is of the
    check's neurodata type, followed by the items of that call; a pair
    whose object is not of that type causes no call and no item. *)
Theorem run_checks_trace
  (h : store) (nwbfile : NWBFile) (checks : list check_ref) :
  (forall c o e, In c checks -> In o (objects nwbfile) ->
     applies_to h c o = true -> Check.call (h c) o = Raised e ->
     isinstance_Exception e = true) ->
  run_checks h nwbfile checks =
    mkGen (flat_map (fun c => flat_map (pair_events h c) (objects nwbfile)) checks)
          None.
Proof.
  intros Hexc. unfold run_checks.
  apply for_each_quiet. intros c Hc.
  apply for_each_quiet. intros o Ho.
  apply run_check_quiet. intros e. now apply Hexc.
Qed.

Lemma run_checks_trace_witness :
  run_checks RaisingScenario.h RaisingScenario.nwbfile [0; 1] =
    mkGen (flat_map (fun c => flat_map (pair_events RaisingScenario.h c)
                                (objects RaisingScenario.nwbfile)) [0; 1])
          None.
Proof.
  apply run_checks_trace.
  intros c o e [<-|[<-|[]]] Ho _ Hcall; [|discriminate Hcall].
  injection Hcall as <-. reflexivity.
Defined.

Lemma raised_for_each_in {A Y} (P : exn -> Prop) (l : list A) (body : A -> gen Y) :
  (forall x e, In x l -> raised (body x) = Some e -> P e) ->
  forall e, raised (Gen.for_each l body) = Some e -> P e.
Proof.
  induction l as [|x l IH]; intros Hbody e; [discriminate|].
  rewrite for_each_cons, raised_seq.
  destruct (raised (body x)) as [e'|] eqn:Hx.
  - intros [= <-]. apply (Hbody x); [now left | assumption].
  - apply IH. intros y e0 Hy. apply Hbody. now right.
Qed.

(** X7.  The only exception that leaves [run_checks] is one a check raised
    on an object it applies to and that is not an instance of
    [Exception]. *)
Theorem run_checks_escape
  (h : store) (nwbfile : NWBFile) (checks : list check_ref) (e : exn) :
  raised (run_checks h nwbfile checks) = Some e ->
  exists c o f,
    In c checks /\ In o (objects nwbfile) /\ applies_to h c o = true /\
    Check.call (h c) o = Raised f /\ isinstance_Exception f = false /\
    e = Foreign f.
Proof.
  unfold run_checks. revert e.
  apply (raised_for_each_in
           (fun e => exists c o f, In c checks /\ In o (objects nwbfile) /\
              applies_to h c o = true /\ Check.call (h c) o = Raised f /\
              isinstance_Exception f = false /\ e = Foreign f)).
  intros c e Hc. revert e.
  apply (raised_for_each_in
           (fun e => exists c o f, In c checks /\ In o (objects nwbfile) /\
              applies_to h c o = true /\ Check.call (h c) o = Raised f /\
              isinstance_Exception f = false /\ e = Foreign f)).
  intros o e Ho. unfold run_check.
  destruct (issubclass_type o _) eqn:Happ; [|discriminate].
  rewrite raised_seq. cbn [raised Gen.perform].
  destruct (Check.call (h c) o) as [output|f] eqn:Hcall.
  - rewrite yield_output_items. discriminate.
  - destruct (isinstance_Exception f) eqn:Hf; [discriminate|].
    intros [= <-]. exists c, o, f. repeat split; assumption.
Qed.

Lemma run_checks_escape_witness :
  exists c o f,
    In c [0; 1] /\ In o (objects InterruptScenario.nwbfile) /\
    applies_to InterruptScenario.h c o = true /\
    Check.call (InterruptScenario.h c) o = Raised f /\
    isinstance_Exception f = false /\
    Foreign InterruptScenario.keyboard_interrupt = Foreign f.
Proof.
  apply (run_checks_escape InterruptScenario.h InterruptScenario.nwbfile [0; 1]).
  reflexivity.
Defined.

(* ------------------------------------------------------------------ *)
(** ** Effects of a run *)

Section EffectsOf.
Context {Y : Type}.

Lemma effects_seq_in (g1 g2 : gen Y) (ef : effect) :
  In ef (Gen.effects (g1 ;; g2)) ->
  In ef (Gen.effects g1) \/ In ef (Gen.effects g2).
Proof.
  unfold Gen.seq. destruct (raised g1); [now left|].
  unfold Gen.effects; simpl. rewrite flat_map_app. apply in_app_or.
Qed.

Lemma effects_for_each_in {A} (P : effect -> Prop) (l : list A) (body : A -> gen Y) :
  (forall x ef, In x l -> In ef (Gen.effects (body x)) -> P ef) ->
  forall ef, In ef (Gen.effects (Gen.for_each l body)) -> P ef.
Proof.
  induction l as [|x l IH]; intros Hbody ef; [intros []|].
  rewrite for_each_cons. intros Hin.
  apply effects_seq_in in Hin as [Hin|Hin].
  - apply (Hbody x); [now left | assumption].
  - apply IH; [|assumption]. intros y ef' Hy. apply Hbody. now right.
Qed.

Lemma effects_consume_in {A} (evs : list (event A)) (ending : option exn)
  (body : A -> gen Y) (ef : effect) :
  In ef (Gen.effects (Gen.consume evs ending body)) ->
  In (Eff ef) evs \/ exists a, In (Yield a) evs /\ In ef (Gen.effects (body a)).
Proof.
  induction evs as [|[e|a] evs IH]; cbn [Gen.consume]; [intros []| |];
    intros Hin; apply effects_seq_in in Hin as [Hin|Hin].
  - destruct Hin as [<-|[]]. left. now left.
  - destruct (IH Hin) as [H|(a & Ha & Hb)]; [left; now right|].
    right. exists a. split; [now right | assumption].
  - right. exists a. split; [now left | assumption].
  - destruct (IH Hin) as [H|(a' & Ha & Hb)]; [left; now right|].
    right. exists a'. split; [now right | assumption].
Qed.

Lemma in_effects_trace (g : gen Y) (ef : effect) :
  In ef (Gen.effects g) <-> In (Eff ef) (trace g).
Proof.
  unfold Gen.effects. rewrite in_flat_map. split.
  - intros ([e|y] & Hin & Hx); [|destruct Hx].
    destruct Hx as [<-|[]]. assumption.
  - intros Hin. exists (Eff ef). split; [assumption | now left].
Qed.

Lemma in_yielded_trace (g : gen Y) (y : Y) :
  In y (Gen.yielded g) <-> In (Yield y) (trace g).
Proof.
  unfold Gen.yielded. rewrite in_flat_map. split.
  - intros ([e|y'] & Hin & Hx); [destruct Hx|].
    destruct Hx as [<-|[]]. assumption.
  - intros Hin. exists (Yield y). split; [assumption | now left].
Qed.

Lemma in_calls_effects (g : gen Y) (c : check_ref) (o : nwb_object) :
  In (c, o) (Gen.calls g) <-> In (Call c o) (Gen.effects g).
Proof.
  unfold Gen.calls. rewrite in_flat_map. split.
  - intros ([p|p|c' o'] & Hin & Hx); [destruct Hx | destruct Hx |].
    destruct Hx as [[= <- <-]|[]]. assumption.
  - intros Hin. exists (Call c o). split; [assumption | now left].
Qed.

Lemma effects_seq (g1 g2 : gen Y) :
  raised g1 = None ->
  Gen.effects (g1 ;; g2) = Gen.effects g1 ++ Gen.effects g2.
Proof.
  intros H. unfold Gen.seq, Gen.effects. rewrite H. simpl. apply flat_map_app.
Qed.

Lemma effects_closing (path : string) (g : gen Y) :
  Gen.effects (Gen.closing path g) = Gen.effects g ++ [Close path].
Proof. unfold Gen.closing, Gen.effects; simpl. now rewrite flat_map_app. Qed.

End EffectsOf.

(** A list of effects that are all calls is the list of its calls. *)
Lemma effects_all_calls (l : list effect) :
  (forall ef, In ef l -> exists c o, ef = Call c o) ->
  l = map call_effect
        (flat_map (fun e => match e with Call c o => [(c, o)] | _ => [] end) l).
Proof.
  induction l as [|ef l IH]; intros Hall; [reflexivity|].
  destruct (Hall ef (or_introl eq_refl)) as (c & o & ->). simpl.
  f_equal. apply IH. intros ef' Hin. apply Hall. now right.
Qed.

Lemma effects_run_check (h : store) (c : check_ref) (o : nwb_object) (ef : effect) :
  In ef (Gen.effects (run_check h c o)) ->
  ef = Call c o /\ applies_to h c o = true.
Proof.
  unfold run_check, applies_to.
  destruct (issubclass_type o _); [|intros []].
  intros Hin. apply effects_seq_in in Hin as [[<-|[]]|Hin]; [now split|].
  exfalso. destruct (Check.call (h c) o) as [output|e].
  - rewrite yield_output_items in Hin. apply in_effects_trace in Hin. simpl in Hin.
    apply in_map_iff in Hin as (x & Hx & _). discriminate.
  - destruct (isinstance_Exception e); simpl in Hin; destruct Hin.
Qed.

(** Every call of [run_checks] is for a check of the list and an object of
    the file of the check's neurodata type. *)
Lemma effects_run_checks (h : store) (nwbfile : NWBFile) (checks : list check_ref)
  (ef : effect) :
  In ef (Gen.effects (run_checks h nwbfile checks)) ->
  exists c o, ef = Call c o /\ In c checks /\ In o (objects nwbfile) /\
              applies_to h c o = true.
Proof.
  unfold run_checks. revert ef.
  apply (effects_for_each_in
           (fun ef => exists c o, ef = Call c o /\ In c checks /\
              In o (objects nwbfile) /\ applies_to h c o = true)).
  intros c ef Hc. revert ef.
  apply (effects_for_each_in
           (fun ef => exists c o, ef = Call c o /\ In c checks /\
              In o (objects nwbfile) /\ applies_to h c o = true)).
  intros o ef Ho Hin. apply effects_run_check in Hin as [-> Happ].
  exists c, o. auto.
Qed.

Lemma effects_stamp_and_yield (path : string) (v : pyval) :
  Gen.effects (stamp_and_yield path v) = [].
Proof. destruct v; reflexivity. Qed.

Lemma effects_inspect_read (h : store) (nwbfile : option NWBFile) (path : string)
  (checks : list check_ref) (thr : Importance) (ignore select : option (list string))
  (ef : effect) :
  In ef (Gen.effects (inspect_read h nwbfile path checks thr ignore select)) ->
  exists c o file, ef = Call c o /\ nwbfile = Some file /\
    In c (filter_checks h checks thr ignore select) /\
    In o (objects file) /\ applies_to h c o = true.
Proof.
  unfold inspect_read. destruct nwbfile as [file|]; [|intros []].
  unfold Gen.for_in. intros Hin.
  apply effects_consume_in in Hin as [Hin|(a & _ & Hin)].
  - apply in_effects_trace in Hin. apply effects_run_checks in Hin.
    destruct Hin as (c & o & -> & Hc & Ho & Happ). exists c, o, file. auto.
  - rewrite effects_stamp_and_yield in Hin. destruct Hin.
Qed.

Lemma effects_inspect_opened (h : store) (io : NWBHDF5IO) (path : string)
  (checks : list check_ref) (thr : Importance) (ignore select : option (list string))
  (ef : effect) :
  In ef (Gen.effects (inspect_opened h io path checks thr ignore select)) ->
  exists c o file, ef = Call c o /\ io_read io = inr file /\
    In c (filter_checks h checks thr ignore select) /\
    In o (objects file) /\ applies_to h c o = true.
Proof.
  unfold inspect_opened.
  destruct (io_validate io) as [e|ves]; [intros []|].
  intros Hin. apply effects_seq_in in Hin as [Hin|Hin].
  - exfalso. rewrite for_each_yield in Hin. apply in_effects_trace in Hin.
    simpl in Hin. apply in_map_iff in Hin as (x & Hx & _). discriminate.
  - destruct (io_read io) as [ex|file].
    + exfalso. destruct (isinstance_Exception ex); [|destruct Hin].
      apply effects_seq_in in Hin as [[]|Hin].
      apply effects_inspect_read in Hin as (c & o & f & _ & Hf & _). discriminate.
    + apply effects_inspect_read in Hin as (c & o & f & -> & [= <-] & Hrest).
      exists c, o, file. auto.
Qed.

(* ------------------------------------------------------------------ *)
(** ** [inspect_nwb]: the file handle, the checks called, the output *)

(** X8.  Once the constructor of the handle has returned, the effects of
    [inspect_nwb] are: the file is opened, check functions are called, and
    the file is closed last, however the run ends, with a result or with
    an exception of the validator, the read, a check or the stamping. *)
Theorem inspect_nwb_brackets_file
  (h : store) (w : world) (path : string) (checks : list check_ref)
  (thr : Importance) (ignore select : option (list string)) (io : NWBHDF5IO) :
  is_not_None ignore && is_not_None select = false ->
  w path = inr io ->
  Gen.effects (inspect_nwb h w path checks thr ignore select) =
    Open path
    :: map call_effect (Gen.calls (inspect_nwb h w path checks thr ignore select))
    ++ [Close path].
Proof.
  intros Hguard Hw.
  assert (Heff : Gen.effects (inspect_nwb h w path checks thr ignore select) =
                 Open path
                 :: Gen.effects (inspect_opened h io path checks thr ignore select)
                 ++ [Close path]).
  { unfold inspect_nwb. rewrite Hguard, Hw, effects_seq by reflexivity.
    now rewrite effects_closing. }
  unfold Gen.calls. rewrite Heff. cbn [flat_map app]. f_equal.
  rewrite flat_map_app. cbn [flat_map]. rewrite app_nil_r. f_equal.
  apply effects_all_calls. intros ef Hin.
  apply effects_inspect_opened in Hin as (c & o & _ & -> & _). eauto.
Qed.

Lemma inspect_nwb_brackets_file_witness :
  Gen.effects (inspect_nwb InterruptScenario.h InterruptScenario.w "i.nwb" [0; 1]
                 BEST_PRACTICE_SUGGESTION None None) =
    Open "i.nwb"
    :: map call_effect
         (Gen.calls (inspect_nwb InterruptScenario.h InterruptScenario.w "i.nwb" [0; 1]
                       BEST_PRACTICE_SUGGESTION None None))
    ++ [Close "i.nwb"].
Proof.
  apply (inspect_nwb_brackets_file InterruptScenario.h InterruptScenario.w "i.nwb"
           [0; 1] BEST_PRACTICE_SUGGESTION None None
           {| io_validate := inr []; io_read := inr InterruptScenario.nwbfile |});
    reflexivity.
Defined.

Lemma filter_checks_subset (h : store) (checks : list check_ref) (thr : Importance)
  (ignore select : option (list string)) (c : check_ref) :
  In c (filter_checks h checks thr ignore select) ->
  In c checks /\
  (truthy select = true -> str_in (Check.name (h c)) (names_of select) = true) /\
  (truthy select = false -> truthy ignore = true ->
   str_in (Check.name (h c)) (names_of ignore) = false).
Proof.
  unfold filter_checks, importance_truthy. rewrite filter_In. intros [Hin _].
  destruct (truthy select).
  - apply filter_In in Hin as [Hin Hsel]. repeat split; auto. discriminate.
  - destruct (truthy ignore).
    + apply filter_In in Hin as [Hin Hign]. repeat split; auto; [discriminate|].
      intros _ _. now apply negb_true_iff.
    + repeat split; auto; discriminate.
Qed.

(** X9.  Every call [inspect_nwb] makes is for a check of the given list
    whose importance is not below the threshold, that [select] names if
    [select] is a non-empty list, and that [ignore] does not name if
    [ignore] is a non-empty list and [select] is absent or empty; and for
    an object of the file that was read, of the check's neurodata type. *)
Theorem inspect_nwb_calls_respect_filters
  (h : store) (w : world) (path : string) (checks : list check_ref)
  (thr : Importance) (ignore select : option (list string))
  (c : check_ref) (o : nwb_object) :
  In (c, o) (Gen.calls (inspect_nwb h w path checks thr ignore select)) ->
  In c checks /\
  (ImportanceEnum.value (Check.importance (h c)) >= ImportanceEnum.value thr)%Z /\
  (truthy select = true -> str_in (Check.name (h c)) (names_of select) = true) /\
  (truthy select = false -> truthy ignore = true ->
   str_in (Check.name (h c)) (names_of ignore) = false) /\
  applies_to h c o = true /\
  exists io nwbfile,
    w path = inr io /\ io_read io = inr nwbfile /\ In o (objects nwbfile).
Proof.
  intros Hin. apply in_calls_effects in Hin. unfold inspect_nwb in Hin.
  destruct (is_not_None ignore && is_not_None select); [destruct Hin|].
  apply effects_seq_in in Hin as [[H|[]]|Hin]; [discriminate H|].
  destruct (w path) as [e|io] eqn:Hw; [destruct Hin|].
  rewrite effects_closing in Hin. apply in_app_or in Hin as [Hin|[H|[]]];
    [|discriminate H].
  apply effects_inspect_opened in Hin
    as (c' & o' & file & [= <- <-] & Hread & Hc & Ho & Happ).
  pose proof (proj1 (filter_checks_In h checks thr ignore select c) Hc) as [_ Hthr].
  destruct (filter_checks_subset h checks thr ignore select c Hc) as (H1 & H2 & H3).
  repeat split; auto. exists io, file. auto.
Qed.

Lemma inspect_nwb_calls_respect_filters_witness :
  In 0 ThresholdScenario.checks /\
  (ImportanceEnum.value (Check.importance (ThresholdScenario.h 0%nat))
   >= ImportanceEnum.value CRITICAL)%Z.
Proof.
  destruct (inspect_nwb_calls_respect_filters
              ThresholdScenario.h ThresholdScenario.w "f.nwb"
              ThresholdScenario.checks CRITICAL None None 0 time_series_object)
    as (Hin & Hthr & _).
  - simpl. now left.
  - split; assumption.
Defined.

Lemma consume_non_message (path : string) (evs : list (event pyval))
  (ending : option exn) :
  (exists v, In (Yield v) evs /\ is_message v = false) ->
  exists v, In (Yield v) evs /\ is_message v = false /\
    raised (Gen.consume evs ending (stamp_and_yield path))
    = Some (AttributeError (type_name v) "file").
Proof.
  induction evs as [|[e|a] evs IH]; intros (v & Hin & Hv).
  - destruct Hin.
  - destruct Hin as [H|Hin]; [discriminate H|].
    destruct IH as (v' & Hin' & Hv' & Hr); [eauto|].
    exists v'. repeat split; [now right | assumption|].
    cbn [Gen.consume]. rewrite raised_seq. exact Hr.
  - destruct (is_message a) eqn:Ha.
    + destruct Hin as [[= ->]|Hin]; [congruence|].
      destruct IH as (v' & Hin' & Hv' & Hr); [eauto|].
      exists v'. repeat split; [now right | assumption|].
      cbn [Gen.consume]. rewrite raised_seq.
      destruct a; try discriminate Ha. exact Hr.
    + exists a. repeat split; [now left | assumption|].
      cbn [Gen.consume]. rewrite raised_seq.
      destruct a; try discriminate Ha; reflexivity.
Qed.

(** X10.  If a check that is run yields an item that is not a message (a
    bare string, [None] inside a list, a nested list), the assignment of
    [file] fails: [inspect_nwb] is left by an [AttributeError] on "file"
    for the type of such an item. *)
Theorem inspect_nwb_non_message_raises
  (h : store) (w : world) (path : string) (checks : list check_ref)
  (thr : Importance) (ignore select : option (list string))
  (io : NWBHDF5IO) (ves : list ValidationError) (nwbfile : NWBFile) (v : pyval) :
  is_not_None ignore && is_not_None select = false ->
  w path = inr io ->
  io_validate io = inr ves ->
  io_read io = inr nwbfile ->
  In v (Gen.yielded (run_checks h nwbfile (filter_checks h checks thr ignore select))) ->
  is_message v = false ->
  exists v',
    In v' (Gen.yielded (run_checks h nwbfile (filter_checks h checks thr ignore select))) /\
    is_message v' = false /\
    raised (inspect_nwb h w path checks thr ignore select)
    = Some (AttributeError (type_name v') "file").
Proof.
  intros Hguard Hw Hval Hread Hin Hv.
  destruct (consume_non_message path
              (trace (run_checks h nwbfile (filter_checks h checks thr ignore select)))
              (raised (run_checks h nwbfile (filter_checks h checks thr ignore select))))
    as (v' & Hin' & Hv' & Hr).
  { exists v. split; [now apply in_yielded_trace | assumption]. }
  exists v'. split; [now apply in_yielded_trace|]. split; [assumption|].
  unfold inspect_nwb. rewrite Hguard, Hw, raised_seq. cbn [raised Gen.perform Gen.closing].
  unfold inspect_opened. rewrite Hval, Hread, raised_seq, for_each_yield.
  cbn [raised]. exact Hr.
Qed.

Lemma inspect_nwb_non_message_raises_witness :
  exists v',
    In v' (Gen.yielded (run_checks BareStringScenario.h BareStringScenario.nwbfile
                          (filter_checks BareStringScenario.h [0] CRITICAL None None))) /\
    is_message v' = false /\
    raised (inspect_nwb BareStringScenario.h BareStringFile.w "s.nwb" [0] CRITICAL
              None None)
    = Some (AttributeError (type_name v') "file").
Proof.
  apply (inspect_nwb_non_message_raises BareStringScenario.h BareStringFile.w "s.nwb"
           [0] CRITICAL None None BareStringFile.io [] BareStringScenario.nwbfile
           (PStr "a")); try reflexivity.
  simpl. now left.
Defined.

Lemma consume_all_messages (path : string) (evs : list (event pyval))
  (ending : option exn) :
  (forall v, In (Yield v) evs -> is_message v = true) ->
  Gen.consume evs ending (stamp_and_yield path)
  = mkGen (flat_map (stamp_event path) evs) ending.
Proof.
  induction evs as [|[e|v] evs IH]; intros Hall; cbn [Gen.consume flat_map].
  - reflexivity.
  - rewrite IH; [reflexivity|]. intros v Hv. apply Hall. now right.
  - rewrite IH by (intros v' Hv'; apply Hall; now right).
    specialize (Hall v (or_introl eq_refl)).
    destruct v; try discriminate Hall. reflexivity.
Qed.

Lemma yielded_stamped (path : string) (evs : list (event pyval))
  (e1 e2 : option exn) :
  Gen.yielded (mkGen (flat_map (stamp_event path) evs) e1)
  = map (fun m => set_file m path) (messages_of (Gen.yielded (mkGen evs e2))).
Proof.
  unfold Gen.yielded, messages_of; simpl.
  induction evs as [|[e|v] evs IH]; simpl; [reflexivity|assumption|].
  rewrite !flat_map_app, map_app, IH in *. f_equal.
  destruct v; reflexivity.
Qed.

Lemma inspect_nwb_yielded
  (h : store) (w : world) (path : string) (checks : list check_ref)
  (thr : Importance) (ignore select : option (list string))
  (io : NWBHDF5IO) (ves : list ValidationError) (nwbfile : NWBFile) :
  is_not_None ignore && is_not_None select = false ->
  w path = inr io ->
  io_validate io = inr ves ->
  io_read io = inr nwbfile ->
  (forall v,
     In v (Gen.yielded (run_checks h nwbfile (filter_checks h checks thr ignore select))) ->
     is_message v = true) ->
  Gen.yielded (inspect_nwb h w path checks thr ignore select) =
    map validation_message ves
    ++ map (fun m => set_file m path)
         (messages_of
            (Gen.yielded (run_checks h nwbfile (filter_checks h checks thr ignore select)))) /\
  raised (inspect_nwb h w path checks thr ignore select) =
    raised (run_checks h nwbfile (filter_checks h checks thr ignore select)).
Proof.
  intros Hguard Hw Hval Hread Hall.
  assert (Hloop : inspect_read h (Some nwbfile) path checks thr ignore select =
                  mkGen (flat_map (stamp_event path)
                           (trace (run_checks h nwbfile
                                     (filter_checks h checks thr ignore select))))
                        (raised (run_checks h nwbfile
                                   (filter_checks h checks thr ignore select)))).
  { unfold inspect_read, Gen.for_in. apply consume_all_messages.
    intros v Hv. apply Hall. now apply in_yielded_trace. }
  unfold inspect_nwb. rewrite Hguard, Hw. unfold inspect_opened.
  rewrite Hval, Hread, Hloop, for_each_yield. split.
  - rewrite yielded_seq by reflexivity. rewrite yielded_closing.
    rewrite yielded_seq by reflexivity. rewrite yielded_yields.
    rewrite (yielded_stamped path _ _
               (raised (run_checks h nwbfile (filter_checks h checks thr ignore select)))).
    now rewrite gen_eta.
  - reflexivity.
Qed.

(** X11.  For a file that is read, when every item the checks yield is a
    message, [inspect_nwb] yields the validation messages in the order of
    the validator, then the messages of the checks in the order [run_checks]
    yields them, each changed in its [file] field only, which holds the
    path; and it is left by an exception exactly if [run_checks] is. *)
Theorem inspect_nwb_output
  (h : store) (w : world) (path : string) (checks : list check_ref)
  (thr : Importance) (ignore select : option (list string))
  (io : NWBHDF5IO) (ves : list ValidationError) (nwbfile : NWBFile) :
  is_not_None ignore && is_not_None select = false ->
  w path = inr io ->
  io_validate io = inr ves ->
  io_read io = inr nwbfile ->
  (forall v,
     In v (Gen.yielded (run_checks h nwbfile (filter_checks h checks thr ignore select))) ->
     is_message v = true) ->
  Gen.yielded (inspect_nwb h w path checks thr ignore select) =
    map validation_message ves
    ++ map (fun m => set_file m path)
         (messages_of
            (Gen.yielded (run_checks h nwbfile (filter_checks h checks thr ignore select)))) /\
  raised (inspect_nwb h w path checks thr ignore select) =
    raised (run_checks h nwbfile (filter_checks h checks thr ignore select)).
Proof. apply inspect_nwb_yielded. Qed.

Lemma inspect_nwb_output_witness :
  map file (Gen.yielded (inspect_nwb ValidationScenario.h ValidationScenario.w "v.nwb"
                           ValidationScenario.checks CRITICAL None None))
  = [None; Some "v.nwb"].
Proof.
  destruct (inspect_nwb_output ValidationScenario.h ValidationScenario.w "v.nwb"
              ValidationScenario.checks CRITICAL None None ValidationScenario.io
              [ValidationScenario.missing_attribute]
              {| objects := [time_series_object] |}
              eq_refl eq_refl eq_refl eq_refl) as [Hy _].
  - intros v [<-|[]]. reflexivity.
  - rewrite Hy. reflexivity.
Defined.

(** X12.  For a file whose read raises an [Exception], [inspect_nwb] opens
    the file, yields the validation messages and one ERROR message that
    holds the traceback and, as its check name, the exception itself; then
    it is left by an [UnboundLocalError] for [nwbfile], having called no
    check and with the file closed. *)
Theorem inspect_nwb_read_failure
  (h : store) (w : world) (path : string) (checks : list check_ref)
  (thr : Importance) (ignore select : option (list string))
  (io : NWBHDF5IO) (ves : list ValidationError) (ex : foreign_exception) :
  is_not_None ignore && is_not_None select = false ->
  w path = inr io ->
  io_validate io = inr ves ->
  io_read io = inl ex ->
  isinstance_Exception ex = true ->
  inspect_nwb h w path checks thr ignore select =
    mkGen (Eff (Open path)
           :: map (fun ve => Yield (validation_message ve)) ves
           ++ [Yield {| message := format_exc ex;
                        severity := NO_SEVERITY;
                        importance := Some ERROR;
                        check_function_name := NameExc ex;
                        object_type := None; object_name := None;
                        location := None; file := None |};
               Eff (Close path)])
          (Some (UnboundLocalError "nwbfile")).
Proof.
  intros Hguard Hw Hval Hread Hexc.
  unfold inspect_nwb. rewrite Hguard, Hw. unfold inspect_opened.
  rewrite Hval, Hread, Hexc, for_each_yield.
  unfold Gen.closing, Gen.seq; simpl. now rewrite <- app_assoc.
Qed.

Lemma inspect_nwb_read_failure_witness :
  raised (inspect_nwb BatchScenario.h BatchScenario.w "a.nwb" [1]
            BEST_PRACTICE_SUGGESTION None None)
  = Some (UnboundLocalError "nwbfile").
Proof.
  rewrite (inspect_nwb_read_failure BatchScenario.h BatchScenario.w "a.nwb" [1]
             BEST_PRACTICE_SUGGESTION None None BatchScenario.broken_io []
             BatchScenario.corrupt eq_refl eq_refl eq_refl eq_refl eq_refl).
  reflexivity.
Defined.

(* ------------------------------------------------------------------ *)
(** ** [inspect_all]: files in order, the config, the first exception *)

Lemma for_each_ext {A Y} (l : list A) (f g : A -> gen Y) :
  (forall x, f x = g x) -> Gen.for_each l f = Gen.for_each l g.
Proof.
  intros Hfg. induction l as [|x l IH]; [reflexivity|].
  now rewrite !for_each_cons, Hfg, IH.
Qed.

Lemma inspect_all_files (fs : filesystem) (w : world)
  (available_checks : list check_ref) (path : string)
  (ignore select : option (list string)) (thr : Importance) (h : store)
  (files : list string) :
  fs path = Directory files \/ (fs path = RegularFile /\ files = [path]) ->
  inspect_all fs w available_checks path ignore select None thr h =
    (h, Gen.for_each files (fun nwbfile_path =>
          inspect_nwb h w nwbfile_path available_checks thr ignore select)).
Proof.
  intros Hpath. unfold inspect_all.
  assert (Hloop : forall l,
             Gen.for_each l (fun p => Gen.for_in
                (inspect_nwb h w p available_checks thr ignore select) Gen.yield)
             = Gen.for_each l (fun p =>
                inspect_nwb h w p available_checks thr ignore select)).
  { intros l. apply for_each_ext. intros p. apply for_in_yield. }
  destruct Hpath as [->|[-> ->]]; now rewrite Hloop.
Qed.

(** X14.  In a call that leaves [modules] at its default, so that nothing
    is imported, a config acts on the run through the store only: when the
    path exists and [configure_checks] returns, the run with the config is
    the run without a config in the store [configure_checks] leaves, on
    the same list of checks. *)
Theorem inspect_all_config_through_store
  (fs : filesystem) (w : world) (available_checks out : list check_ref)
  (path : string) (ignore select : option (list string)) (config : config_t)
  (thr : Importance) (h h' : store) :
  fs path <> NoSuchPath ->
  configure_checks config available_checks h = (h', inr out) ->
  inspect_all fs w available_checks path ignore select (Some config) thr h =
    (h', snd (inspect_all fs w available_checks path ignore select None thr h')).
Proof.
  intros Hpath Hconf.
  assert (Hout : out = available_checks).
  { unfold configure_checks in Hconf. now apply configure_loop_out in Hconf. }
  subst out. unfold inspect_all. rewrite Hconf.
  destruct (fs path); [reflexivity | reflexivity | contradiction].
Qed.

Lemma inspect_all_config_through_store_witness :
  inspect_all BatchScenario.fs BatchScenario.w BatchScenario.available_checks
    "session" None None (Some [("BEST_PRACTICE_VIOLATION", ["check_fine"])])
    CRITICAL BatchScenario.h =
  (fst (configure_checks [("BEST_PRACTICE_VIOLATION", ["check_fine"])]
          BatchScenario.available_checks BatchScenario.h),
   snd (inspect_all BatchScenario.fs BatchScenario.w BatchScenario.available_checks
          "session" None None None CRITICAL
          (fst (configure_checks [("BEST_PRACTICE_VIOLATION", ["check_fine"])]
                  BatchScenario.available_checks BatchScenario.h)))).
Proof.
  apply (inspect_all_config_through_store BatchScenario.fs BatchScenario.w
           BatchScenario.available_checks BatchScenario.available_checks).
  - discriminate.
  - reflexivity.
Defined.

(** X15.  [inspect_all] ends with the first file whose [inspect_nwb] is left
    by an exception: its run is the runs of the files before, then the run
    of that file, and it is left by the same exception; the files after it
    contribute nothing, they are not even opened. *)
Theorem inspect_all_stops_at_first_exception
  (fs : filesystem) (w : world) (available_checks : list check_ref)
  (path : string) (ignore select : option (list string)) (thr : Importance)
  (h : store) (files1 files2 : list string) (f : string) (e : exn) :
  fs path = Directory (files1 ++ f :: files2) ->
  (forall p, In p files1 ->
     raised (inspect_nwb h w p available_checks thr ignore select) = None) ->
  raised (inspect_nwb h w f available_checks thr ignore select) = Some e ->
  snd (inspect_all fs w available_checks path ignore select None thr h) =
    mkGen (flat_map (fun p => trace (inspect_nwb h w p available_checks thr ignore select))
             files1
           ++ trace (inspect_nwb h w f available_checks thr ignore select))
          (Some e).
Proof.
  intros Hpath Hquiet Hraise.
  rewrite (inspect_all_files fs w available_checks path ignore select thr h
             (files1 ++ f :: files2)) by (now left).
  cbn [snd]. rewrite for_each_app, for_each_cons.
  rewrite (for_each_quiet files1 _
             (fun p => trace (inspect_nwb h w p available_checks thr ignore select))).
  - unfold Gen.seq at 1. cbn [raised trace]. unfold Gen.seq. rewrite Hraise.
    destruct (inspect_nwb h w f available_checks thr ignore select) as [t r].
    simpl in *. now subst r.
  - intros p Hp. rewrite <- (Hquiet p Hp). symmetry. apply gen_eta.
Qed.

Lemma inspect_all_stops_at_first_exception_witness :
  snd (inspect_all BatchScenario.fs BatchScenario.w BatchScenario.available_checks
         "session" None None None CRITICAL BatchScenario.h) =
    mkGen (trace (inspect_nwb BatchScenario.h BatchScenario.w "a.nwb"
                    BatchScenario.available_checks CRITICAL None None))
          (Some (UnboundLocalError "nwbfile")).
Proof.
  apply (inspect_all_stops_at_first_exception BatchScenario.fs BatchScenario.w
           BatchScenario.available_checks "session" None None CRITICAL
           BatchScenario.h [] ["b.nwb"] "a.nwb" (UnboundLocalError "nwbfile")).
  - reflexivity.
  - intros p [].
  - reflexivity.
Defined.

(* ------------------------------------------------------------------ *)
(** ** [format_organized_results_output]: keys, length, numbering *)

Lemma collect_inr {A} (round : A -> exn + list string) (l : list A)
  (lines : list string) :
  collect round l = inr lines ->
  forall x, In x l -> exists lx, round x = inr lx /\ incl lx lines.
Proof.
  revert lines. induction l as [|y l IH]; intros lines Hc x Hin; [destruct Hin|].
  simpl in Hc. destruct (round y) as [e|ly] eqn:Hy; [discriminate|].
  destruct (collect round l) as [e|more] eqn:Hl; [discriminate|].
  injection Hc as <-. destruct Hin as [->|Hin].
  - exists ly. split; [assumption|]. now apply incl_appl.
  - destruct (IH more eq_refl x Hin) as (lx & Hx & Hincl).
    exists lx. split; [assumption|]. now apply incl_appr.
Qed.

Lemma collect_inl {A} (round : A -> exn + list string) (l : list A) (e : exn) :
  (forall x e', In x l -> round x = inl e' -> e' = e) ->
  (exists x e', In x l /\ round x = inl e') ->
  collect round l = inl e.
Proof.
  induction l as [|y l IH]; intros Hsame (x & e' & Hin & Hx); [destruct Hin|].
  simpl. destruct (round y) as [ey|ly] eqn:Hy.
  - now rewrite (Hsame y ey (or_introl eq_refl) Hy).
  - destruct Hin as [->|Hin]; [congruence|].
    rewrite IH; [reflexivity | | eauto].
    intros z ez Hz. apply Hsame. now right.
Qed.

Lemma in_enumerate {A} (l : list A) (start i : nat) (x : A) :
  nth_error l i = Some x -> In (start + i, x) (enumerate start l).
Proof.
  revert start i. induction l as [|y l IH]; intros start [|i] H; try discriminate.
  - injection H as ->. left. now rewrite Nat.add_0_r.
  - right. rewrite <- Nat.add_succ_comm. now apply IH.
Qed.

Lemma format_bucket_error (i j : nat) (key : bucket_key)
  (results : list InspectorMessage) (e : exn) :
  format_bucket i j key results = inl e ->
  e = AttributeError "str" "name" /\ exists name, key = KeyName name.
Proof.
  destruct key as [level|name]; [discriminate|].
  intros [= <-]. eauto.
Qed.

Lemma format_file_error (num i : nat) (name : option string)
  (buckets : organized_check_results_t) (e : exn) :
  format_file num i name buckets = inl e -> e = AttributeError "str" "name".
Proof.
  unfold format_file.
  destruct (collect _ (enumerate 1 buckets)) as [e'|lines] eqn:Hc; [|discriminate].
  intros [= <-]. clear name num. revert Hc. generalize 1.
  induction buckets as [|[key results] buckets IH]; intros start; [discriminate|].
  simpl. destruct (format_bucket i start key results) as [e0|l0] eqn:Hb.
  - intros [= <-]. now apply format_bucket_error in Hb.
  - destruct (collect _ (enumerate (S start) buckets)) as [e1|l1] eqn:Hrest;
      [|discriminate].
    intros [= <-]. now apply (IH (S start)).
Qed.

(** X16.  If a bucket of any file is keyed by a string, as
    [organize_check_results] keys them, the formatter returns no line at
    all: reading [.name] of the key raises an [AttributeError]. *)
Theorem format_string_key_raises
  (organized_results : list (option string * organized_check_results_t))
  (nwbfile_name : option string) (buckets : organized_check_results_t)
  (name : string) (results : list InspectorMessage) :
  In (nwbfile_name, buckets) organized_results ->
  In (KeyName name, results) buckets ->
  format_organized_results_output organized_results
  = inl (AttributeError "str" "name").
Proof.
  intros Hfile Hbucket. unfold format_organized_results_output.
  generalize (length organized_results) as num. generalize 1 as start.
  induction organized_results as [|[n0 b0] rest IH]; intros start num;
    [destruct Hfile|].
  simpl. destruct (format_file num start n0 b0) as [e|l0] eqn:Hf.
  - now rewrite (format_file_error _ _ _ _ _ Hf).
  - destruct Hfile as [[= -> ->]|Hfile].
    + exfalso. unfold format_file in Hf.
      destruct (collect _ (enumerate 1 buckets)) as [e|lines] eqn:Hc; [discriminate|].
      destruct (In_nth_error _ _ Hbucket) as (j & Hj).
      destruct (collect_inr _ _ _ Hc (1 + j, (KeyName name, results))
                  (in_enumerate _ _ _ _ Hj)) as (lx & Hx & _).
      discriminate Hx.
    + now rewrite (IH Hfile).
Qed.

Lemma format_string_key_raises_witness :
  format_organized_results_output
    [(Some "a.nwb", [(KeyName "ERROR", [ReportScenario.crash])])]
  = inl (AttributeError "str" "name").
Proof.
  apply (format_string_key_raises _ (Some "a.nwb")
           [(KeyName "ERROR", [ReportScenario.crash])] "ERROR" [ReportScenario.crash]);
    now left.
Defined.

Lemma length_enumerate {A} (l : list A) (start : nat) :
  length (enumerate start l) = length l.
Proof.
  revert start. induction l as [|x l IH]; intros start; simpl; [reflexivity|].
  now rewrite IH.
Qed.

Lemma format_bucket_length (i j : nat) (level : Importance)
  (results : list InspectorMessage) :
  exists lines,
    format_bucket i j (KeyMember level) results = inr lines /\
    length lines = 2 + length results.
Proof.
  unfold format_bucket. cbn [key_name key_in key_eq_str existsb orb]. cbv zeta.
  eexists. split; [reflexivity|].
  cbn [length app]. now rewrite length_map, length_enumerate.
Qed.

Lemma format_buckets_length (i : nat) (buckets : organized_check_results_t)
  (start : nat) :
  (forall key results, In (key, results) buckets -> exists level, key = KeyMember level) ->
  exists lines,
    collect (fun '(importance_index, (importance_level, check_results)) =>
               format_bucket i importance_index importance_level check_results)
            (enumerate start buckets) = inr lines /\
    length lines = 2 * length buckets + count_bucket_messages buckets.
Proof.
  revert start. induction buckets as [|[key results] buckets IH]; intros start Hkeys.
  - exists []. split; reflexivity.
  - destruct (Hkeys key results (or_introl eq_refl)) as (level & ->).
    destruct (format_bucket_length i start level results) as (l0 & Hl0 & Hlen0).
    destruct (IH (S start)) as (l1 & Hl1 & Hlen1).
    { intros k r Hin. apply (Hkeys k r). now right. }
    exists (l0 ++ l1). cbn [enumerate collect]. rewrite Hl0, Hl1.
    split; [reflexivity|].
    rewrite length_app, Hlen0, Hlen1.
    change (count_bucket_messages ((KeyMember level, results) :: buckets))
      with (length results + count_bucket_messages buckets).
    cbn [length]. lia.
Qed.

Lemma format_file_length (num i : nat) (name : option string)
  (buckets : organized_check_results_t) :
  (forall key results, In (key, results) buckets -> exists level, key = KeyMember level) ->
  exists lines,
    format_file num i name buckets = inr lines /\
    length lines = 2 + 2 * length buckets + count_bucket_messages buckets
                   + (if Nat.eqb i num then 0 else 1).
Proof.
  intros Hkeys. unfold format_file.
  destruct (format_buckets_length i buckets 1 Hkeys) as (l & -> & Hlen).
  eexists. split; [reflexivity|].
  cbn [length app]. rewrite length_app, Hlen.
  destruct (Nat.eqb i num); simpl; lia.
Qed.

Lemma format_files_length
  (l : list (option string * organized_check_results_t)) (start num : nat) :
  (forall name buckets key results, In (name, buckets) l ->
     In (key, results) buckets -> exists level, key = KeyMember level) ->
  start + length l = S num ->
  exists lines,
    collect (fun '(nwbfile_index, (nwbfile_name, organized_check_results)) =>
               format_file num nwbfile_index nwbfile_name organized_check_results)
            (enumerate start l) = inr lines /\
    length lines = 3 * length l - 1 + 2 * count_buckets l + count_messages l.
Proof.
  revert start. induction l as [|[name buckets] l IH]; intros start Hkeys Hnum.
  - exists []. split; reflexivity.
  - destruct (format_file_length num start name buckets) as (l0 & Hl0 & Hlen0).
    { intros k r. apply (Hkeys name buckets). now left. }
    destruct (IH (S start)) as (l1 & Hl1 & Hlen1).
    { intros n b k r Hin. apply (Hkeys n b). now right. }
    { simpl in Hnum. lia. }
    exists (l0 ++ l1). cbn [enumerate collect]. rewrite Hl0, Hl1.
    split; [reflexivity|].
    rewrite length_app, Hlen0, Hlen1.
    change (count_buckets ((name, buckets) :: l))
      with (length buckets + count_buckets l).
    change (count_messages ((name, buckets) :: l))
      with (count_bucket_messages buckets + count_messages l).
    cbn [length]. simpl in Hnum.
    destruct (Nat.eqb_spec start num) as [Heq|Hne].
    + assert (length l = 0) by lia. lia.
    + assert (length l > 0) by lia. lia.
Qed.

(** X17.  When every bucket is keyed by an [Importance] member, the
    formatter returns, and the number of lines it returns is two for each
    file, two for each bucket, one for each message (an entry is one
    element of the list, though it holds two lines of text) and one for
    each separator between two files. *)
Theorem format_line_count
  (organized_results : list (option string * organized_check_results_t)) :
  (forall name buckets key results, In (name, buckets) organized_results ->
     In (key, results) buckets -> exists level, key = KeyMember level) ->
  exists lines,
    format_organized_results_output organized_results = inr lines /\
    length lines =
      3 * length organized_results - 1
      + 2 * count_buckets organized_results + count_messages organized_results.
Proof.
  intros Hkeys. unfold format_organized_results_output.
  apply format_files_length; [assumption | reflexivity].
Qed.

Lemma format_line_count_witness :
  exists lines,
    format_organized_results_output ReportScenario.organized_results = inr lines /\
    length lines = 5.
Proof.
  destruct (format_line_count ReportScenario.organized_results) as (lines & H & Hlen).
  - intros name buckets key results [[= <- <-]|[]] [[= <- <-]|[]]. now exists ERROR.
  - exists lines. split; [exact H | exact Hlen].
Defined.

(** X18.  Whenever the formatter returns, the message at position k of the
    bucket at position j of the file at position i (all counted from 0) is
    rendered by the two-line template under the number "i+1.j+1.k+1", and
    the key of its bucket is an [Importance] member. *)
Theorem format_numbers_entries
  (organized_results : list (option string * organized_check_results_t))
  (lines : list string) (i j k : nat) (name : option string)
  (buckets : organized_check_results_t) (key : bucket_key)
  (results : list InspectorMessage) (m : InspectorMessage) :
  format_organized_results_output organized_results = inr lines ->
  nth_error organized_results i = Some (name, buckets) ->
  nth_error buckets j = Some (key, results) ->
  nth_error results k = Some m ->
  In (normal_entry (S i) (S j) (S k) m) lines /\
  exists level, key = KeyMember level.
Proof.
  intros Hfmt Hi Hj Hk. unfold format_organized_results_output in Hfmt.
  destruct (collect_inr _ _ _ Hfmt (1 + i, (name, buckets)) (in_enumerate _ _ _ _ Hi))
    as (lf & Hlf & Hinclf).
  unfold format_file in Hlf.
  destruct (collect _ (enumerate 1 buckets)) as [e|lb] eqn:Hb; [discriminate|].
  injection Hlf as <-.
  destruct (collect_inr _ _ _ Hb (1 + j, (key, results)) (in_enumerate _ _ _ _ Hj))
    as (lx & Hlx & Hinclx).
  destruct (format_bucket_normal _ _ _ _ _ Hlx) as (level & -> & ->).
  split; [|now exists level].
  apply Hinclf. right. right. apply in_or_app. left.
  apply Hinclx. right. right.
  apply in_map_iff. exists (1 + k, m). split; [reflexivity|].
  now apply in_enumerate.
Qed.

Lemma format_numbers_entries_witness :
  In (normal_entry 1 1 1 ReportScenario.crash)
     ["NWBFile: a.nwb" +s+ newline;
      "==============" +s+ newline;
      newline +s+ "ERROR" +s+ newline;
      "-----" +s+ newline;
      normal_entry 1 1 1 ReportScenario.crash].
Proof.
  apply (format_numbers_entries ReportScenario.organized_results _ 0 0 0
           (Some "a.nwb") [(KeyMember ERROR, [ReportScenario.crash])]
           (KeyMember ERROR) [ReportScenario.crash] ReportScenario.crash);
    reflexivity.
Defined.

Example organize_two_files :
  organize_messages_by_file String.ltb OrganizeScenario.messages =
  inr [(Some "a.nwb", [(KeyMember CRITICAL, [OrganizeScenario.m2])]);
       (Some "b.nwb",
        [(KeyMember CRITICAL, [OrganizeScenario.m4]);
         (KeyMember BEST_PRACTICE_SUGGESTION,
          [OrganizeScenario.m3; OrganizeScenario.m1; OrganizeScenario.m5])])].
Proof. reflexivity. Qed.

(* ------------------------------------------------------------------ *)
(** ** Sets, sorts and partitions *)

Lemma file_eqb_spec (a b : option string) : file_eqb a b = true <-> a = b.
Proof.
  destruct a as [x|], b as [y|]; simpl; split; try discriminate; try reflexivity.
  - intros H. apply String.eqb_eq in H. now subst.
  - intros [= ->]. apply String.eqb_refl.
Qed.

Lemma value_injective (a b : Importance) :
  ImportanceEnum.value a = ImportanceEnum.value b -> a = b.
Proof. destruct a, b; simpl; intros H; try reflexivity; discriminate H. Qed.

Lemma member_eqb_spec (a b : Importance) : member_eqb a b = true <-> a = b.
Proof.
  unfold member_eqb. rewrite Z.eqb_eq. split; [apply value_injective | now intros ->].
Qed.

Lemma importance_is_spec (a : option Importance) (b : Importance) :
  importance_is a b = true <-> a = Some b.
Proof.
  destruct a as [i|]; simpl; [|split; discriminate].
  rewrite Z.eqb_eq. split.
  - intros H. now rewrite (value_injective _ _ H).
  - now intros [= ->].
Qed.

Section Distinct.
Context {A : Type} (eqb : A -> A -> bool).
Hypothesis eqb_spec : forall a b, eqb a b = true <-> a = b.

Lemma existsb_eqb_In (x : A) (l : list A) : existsb (eqb x) l = true <-> In x l.
Proof.
  rewrite existsb_exists. split.
  - intros (y & Hy & Heq). apply eqb_spec in Heq. now subst.
  - intros Hin. exists x. split; [assumption | now apply eqb_spec].
Qed.

Lemma in_distinct (x : A) (l : list A) : In x (distinct eqb l) <-> In x l.
Proof.
  induction l as [|y l IH]; simpl; [reflexivity|].
  destruct (existsb (eqb y) l) eqn:Hy.
  - rewrite IH. split; [now right|]. intros [->|H]; [|assumption].
    now apply existsb_eqb_In.
  - simpl. now rewrite IH.
Qed.

Lemma NoDup_distinct (l : list A) : NoDup (distinct eqb l).
Proof.
  induction l as [|y l IH]; simpl; [constructor|].
  destruct (existsb (eqb y) l) eqn:Hy; [assumption|].
  constructor; [|assumption]. rewrite in_distinct. intros Hin.
  apply existsb_eqb_In in Hin. congruence.
Qed.

End Distinct.

Section SortedBy.
Context {A : Type} (key : A -> Z).

Lemma insert_by_perm (x : A) (l : list A) : Permutation (insert_by key x l) (x :: l).
Proof.
  induction l as [|y l IH]; simpl; [reflexivity|].
  destruct (key x <=? key y)%Z; [reflexivity|].
  rewrite IH. apply perm_swap.
Qed.

Lemma sorted_by_perm (l : list A) : Permutation (sorted_by key l) l.
Proof.
  induction l as [|x l IH]; simpl; [reflexivity|].
  rewrite insert_by_perm. now constructor.
Qed.

Lemma insert_by_sorted (x : A) (l : list A) :
  Sorted (fun a b => (key a <= key b)%Z) l ->
  Sorted (fun a b => (key a <= key b)%Z) (insert_by key x l).
Proof.
  induction l as [|y l IH]; intros Hs; simpl.
  - repeat constructor.
  - destruct (Z.leb_spec (key x) (key y)).
    + constructor; [assumption|]. now constructor.
    + inversion Hs as [|? ? Hs' Hhd]; subst. constructor; [now apply IH|].
      destruct l as [|z l]; simpl.
      * constructor. lia.
      * destruct (Z.leb_spec (key x) (key z)); constructor; [lia|].
        now inversion Hhd.
Qed.

Lemma sorted_by_sorted (l : list A) :
  Sorted (fun a b => (key a <= key b)%Z) (sorted_by key l).
Proof.
  induction l as [|x l IH]; simpl; [constructor|]. now apply insert_by_sorted.
Qed.

(** The sort is stable: the elements of one key keep their order. *)
Lemma insert_by_stable (v : Z) (x : A) (l : list A) :
  Sorted (fun a b => (key a <= key b)%Z) l ->
  filter (fun a => Z.eqb (key a) v) (insert_by key x l) =
  filter (fun a => Z.eqb (key a) v) (x :: l).
Proof.
  induction l as [|y l IH]; intros Hs; [reflexivity|].
  cbn [insert_by]. destruct (Z.leb_spec (key x) (key y)); [reflexivity|].
  inversion Hs; subst. cbn [filter]. rewrite IH by assumption. cbn [filter].
  destruct (Z.eqb_spec (key x) v), (Z.eqb_spec (key y) v); try reflexivity. lia.
Qed.

Lemma sorted_by_stable (v : Z) (l : list A) :
  filter (fun a => Z.eqb (key a) v) (sorted_by key l) =
  filter (fun a => Z.eqb (key a) v) l.
Proof.
  induction l as [|x l IH]; [reflexivity|].
  cbn [sorted_by]. rewrite insert_by_stable by apply sorted_by_sorted.
  cbn [filter]. now rewrite IH.
Qed.

End SortedBy.

Section Partition.
Context {A K : Type} (belongs : A -> K -> bool).

Lemma flat_map_filter_cons_other (x : A) (l : list A) (ks : list K) :
  (forall k, In k ks -> belongs x k = false) ->
  flat_map (fun k => filter (fun a => belongs a k) (x :: l)) ks =
  flat_map (fun k => filter (fun a => belongs a k) l) ks.
Proof.
  induction ks as [|k ks IH]; intros Hno; [reflexivity|].
  cbn [flat_map]. rewrite IH by (intros k' Hk'; apply Hno; now right).
  f_equal. cbn [filter]. now rewrite (Hno k (or_introl eq_refl)).
Qed.

Lemma flat_map_filter_cons (x : A) (l : list A) (ks : list K) (k0 : K) :
  NoDup ks -> In k0 ks -> belongs x k0 = true ->
  (forall k, In k ks -> belongs x k = true -> k = k0) ->
  Permutation (flat_map (fun k => filter (fun a => belongs a k) (x :: l)) ks)
              (x :: flat_map (fun k => filter (fun a => belongs a k) l) ks).
Proof.
  induction ks as [|k ks IH]; intros Hnd Hin Hx Huniq; [destruct Hin|].
  inversion Hnd as [|? ? Hnotin Hnd']; subst.
  cbn [flat_map].
  replace (filter (fun a => belongs a k) (x :: l))
    with (if belongs x k then x :: filter (fun a => belongs a k) l
          else filter (fun a => belongs a k) l) by reflexivity.
  destruct (belongs x k) eqn:Hk.
  - assert (k = k0) by (apply Huniq; [now left | assumption]). subst k.
    rewrite flat_map_filter_cons_other; [reflexivity|].
    intros k' Hk'. destruct (belongs x k') eqn:Hb; [|reflexivity].
    exfalso. apply Hnotin. rewrite <- (Huniq k' (or_intror Hk') Hb). assumption.
  - destruct Hin as [->|Hin]; [congruence|].
    rewrite IH; auto.
    + apply Permutation_sym, Permutation_middle.
    + intros k' Hk'. apply Huniq. now right.
Qed.

(** Filtering a list by each key of a duplicate-free list of keys, every
    element having exactly one of the keys, gives the list back up to
    order. *)
Lemma partition_perm (l : list A) (ks : list K) :
  NoDup ks ->
  (forall x, In x l -> exists k, In k ks /\ belongs x k = true) ->
  (forall x k k', In k ks -> In k' ks ->
     belongs x k = true -> belongs x k' = true -> k = k') ->
  Permutation (flat_map (fun k => filter (fun a => belongs a k) l) ks) l.
Proof.
  intros Hnd. induction l as [|x l IH]; intros Hcover Huniq.
  - clear. induction ks as [|k ks IH]; [constructor | exact IH].
  - destruct (Hcover x (or_introl eq_refl)) as (k0 & Hk0 & Hx).
    rewrite (flat_map_filter_cons x l ks k0 Hnd Hk0 Hx).
    + constructor. apply IH; [|assumption].
      intros y Hy. apply Hcover. now right.
    + intros k Hk Hb. now apply (Huniq x).
Qed.

End Partition.

Lemma traverse_inr {K V} (round : K -> organize_error + V) (keys : list K)
  (res : list (K * V)) :
  traverse round keys = inr res ->
  map fst res = keys /\
  forall k v, In (k, v) res -> In k keys /\ round k = inr v.
Proof.
  revert res. induction keys as [|k keys IH]; intros res; simpl.
  - intros [= <-]. split; [reflexivity | intros k v []].
  - destruct (round k) as [e|v] eqn:Hk; [discriminate|].
    destruct (traverse round keys) as [e|more]; [discriminate|].
    intros [= <-]. destruct (IH more eq_refl) as [Hfst Hall]. split.
    + simpl. now rewrite Hfst.
    + intros k' v' [[= <- <-]|Hin]; [split; [now left | assumption]|].
      destruct (Hall k' v' Hin). split; [now right | assumption].
Qed.

Section SortedPaths.
Variable path_lt : string -> string -> bool.

Lemma insert_path_perm (x : string) (l : list string) :
  Permutation (insert_path path_lt x l) (x :: l).
Proof.
  induction l as [|y l IH]; simpl; [reflexivity|].
  destruct (path_lt x y); [reflexivity|]. rewrite IH. apply perm_swap.
Qed.

Lemma sorted_paths_perm (l : list string) :
  Permutation (sorted_paths path_lt l) l.
Proof.
  induction l as [|x l IH]; simpl; [reflexivity|].
  rewrite insert_path_perm. now constructor.
Qed.

(** For an order in which two different paths always compare one way or
    the other, the sorted list ascends from each path to the next. *)
Hypothesis path_lt_total :
  forall a b, a <> b -> path_lt a b = true \/ path_lt b a = true.

Lemma insert_path_sorted (x : string) (l : list string) :
  ~ In x l ->
  Sorted (fun a b => path_lt a b = true) l ->
  Sorted (fun a b => path_lt a b = true) (insert_path path_lt x l).
Proof.
  induction l as [|y l IH]; intros Hnot Hs; simpl.
  - repeat constructor.
  - destruct (path_lt x y) eqn:Hxy.
    + constructor; [assumption|]. now constructor.
    + assert (Hyx : path_lt y x = true).
      { destruct (path_lt_total x y) as [H|H]; [|congruence|assumption].
        intros ->. apply Hnot. now left. }
      inversion Hs as [|? ? Hs' Hhd]; subst.
      constructor; [apply IH; [|assumption]|].
      * intros Hin. apply Hnot. now right.
      * destruct l as [|z l]; simpl; [now constructor|].
        destruct (path_lt x z); constructor; [assumption|]. now inversion Hhd.
Qed.

Lemma sorted_paths_sorted (l : list string) :
  NoDup l -> Sorted (fun a b => path_lt a b = true) (sorted_paths path_lt l).
Proof.
  induction l as [|x l IH]; intros Hnd; simpl; [constructor|].
  inversion Hnd; subst. apply insert_path_sorted; [|now apply IH].
  intros Hin. apply (Permutation_in _ (sorted_paths_perm l)) in Hin. contradiction.
Qed.

End SortedPaths.

(* ------------------------------------------------------------------ *)
(** ** [organize_messages_by_file]: errors, partition, order *)

Lemma somes_in (files : list (option string)) (p : string) :
  In p (flat_map (fun f => match f with Some q => [q] | None => [] end) files)
  <-> In (Some p) files.
Proof.
  rewrite in_flat_map. split.
  - intros ([q|] & Hin & Hq); [|destruct Hq].
    destruct Hq as [->|[]]. assumption.
  - intros Hin. exists (Some p). split; [assumption | now left].
Qed.

Lemma somes_NoDup (files : list (option string)) :
  NoDup files ->
  NoDup (flat_map (fun f => match f with Some q => [q] | None => [] end) files).
Proof.
  induction files as [|[q|] files IH]; intros Hnd; simpl; [constructor| |];
    inversion Hnd; subst; [|now apply IH].
  constructor; [|now apply IH]. now rewrite somes_in.
Qed.

Lemma NoDup_map_Some {A} (l : list A) : NoDup l -> NoDup (map Some l).
Proof.
  induction 1 as [|x l Hnot Hnd IH]; simpl; constructor; [|assumption].
  rewrite in_map_iff. intros (y & [= ->] & Hy). contradiction.
Qed.

Lemma two_different {A} (a b : A) (l : list A) :
  In a l -> In b l -> a <> b -> 2 <= length l.
Proof.
  destruct l as [|x [|y l]]; simpl.
  - intros [].
  - intros [<-|[]] [<-|[]] Hne. contradiction.
  - lia.
Qed.

Section OrganizeFacts.
Variable path_lt : string -> string -> bool.

Lemma sorted_files_inr (messages : list InspectorMessage)
  (files : list (option string)) :
  sorted_files path_lt messages = inr files ->
  NoDup files /\ forall f, In f files <-> In f (map file messages).
Proof.
  unfold sorted_files.
  pose proof (NoDup_distinct file_eqb file_eqb_spec (map file messages)) as Hnd.
  pose proof (fun f => in_distinct file_eqb file_eqb_spec f (map file messages)) as Hin.
  destruct (existsb _ (distinct file_eqb (map file messages))) eqn:Hnone.
  - destruct (2 <=? _)%nat; [discriminate|]. intros [= <-]. now split.
  - intros [= <-]. split.
    + apply NoDup_map_Some.
      apply (Permutation_NoDup (Permutation_sym (sorted_paths_perm path_lt _))).
      now apply somes_NoDup.
    + intros [p|].
      * rewrite <- Hin. split.
        -- intros Hmap. apply in_map_iff in Hmap as (q & [= ->] & Hq).
           apply somes_in.
           now apply (Permutation_in _ (sorted_paths_perm path_lt _)).
        -- intros Hp. apply in_map_iff. exists p. split; [reflexivity|].
           apply (Permutation_in _ (Permutation_sym (sorted_paths_perm path_lt _))).
           now apply somes_in.
      * rewrite <- Hin. split.
        -- intros Hmap. apply in_map_iff in Hmap as (q & Hq & _). discriminate.
        -- intros HNone. exfalso.
           assert (existsb (fun f => negb (is_not_None f))
                     (distinct file_eqb (map file messages)) = true).
           { apply existsb_exists. exists None. now split. }
           congruence.
Qed.

Lemma sorted_files_mixed (messages : list InspectorMessage) (p : string) :
  In None (map file messages) -> In (Some p) (map file messages) ->
  sorted_files path_lt messages = inl TypeError.
Proof.
  intros HNone HSome. unfold sorted_files.
  apply (proj2 (in_distinct file_eqb file_eqb_spec _ _)) in HNone, HSome.
  assert (H1 : existsb (fun f => negb (is_not_None f))
                 (distinct file_eqb (map file messages)) = true).
  { apply existsb_exists. exists None. now split. }
  rewrite H1.
  assert (H2 : 2 <= length (distinct file_eqb (map file messages))).
  { apply (two_different None (Some p)); [assumption | assumption | discriminate]. }
  apply Nat.leb_le in H2. now rewrite H2.
Qed.

End OrganizeFacts.

(** Distinct levels sorted by the negated value descend strictly. *)
Lemma levels_descend (l : list Importance) :
  NoDup l ->
  Sorted (fun a b => (- ImportanceEnum.value a <= - ImportanceEnum.value b)%Z) l ->
  Sorted (fun a b => (ImportanceEnum.value a > ImportanceEnum.value b)%Z) l.
Proof.
  intros Hnd Hs. induction Hs as [|a l Hs IH Hhd]; [constructor|].
  inversion Hnd as [|? ? Hnot Hnd']; subst.
  constructor; [now apply IH|].
  destruct Hhd as [|b l Hab]; constructor.
  assert (a <> b) by (intros ->; apply Hnot; now left).
  assert (ImportanceEnum.value a <> ImportanceEnum.value b)
    by (intros Hv; now apply value_injective in Hv).
  lia.
Qed.

(** The levels of the buckets of one file. *)
Lemma organize_file_inr (messages : list InspectorMessage) (f : option string)
  (buckets : organized_check_results_t) :
  organize_file messages f = inr buckets ->
  let file_messages := filter (fun x => file_eqb (file x) f) messages in
  exists levels,
    NoDup levels /\
    (forall level, In level levels <->
       exists x, In x file_messages /\ importance x = Some level) /\
    (forall x, In x file_messages -> exists level, importance x = Some level) /\
    Sorted (fun a b => (ImportanceEnum.value a > ImportanceEnum.value b)%Z) levels /\
    buckets =
      map (fun level =>
             (KeyMember level,
              sorted_by (fun x => (- severity_value (severity x))%Z)
                (filter (fun x => importance_is (importance x) level) file_messages)))
          levels.
Proof.
  unfold organize_file. cbv zeta.
  set (fm := filter (fun x => file_eqb (file x) f) messages).
  destruct (existsb _ fm) eqn:Hnone; [discriminate|]. intros [= <-].
  set (raw := flat_map (fun x => match importance x with Some i => [i] | None => [] end) fm).
  set (d := distinct member_eqb raw).
  assert (Hnd : NoDup d) by apply (NoDup_distinct member_eqb member_eqb_spec).
  assert (Hperm : Permutation (sorted_by (fun i => (- ImportanceEnum.value i)%Z) d) d)
    by apply sorted_by_perm.
  exists (sorted_by (fun i => (- ImportanceEnum.value i)%Z) d).
  split; [|split; [|split; [|split]]].
  - now apply (Permutation_NoDup (Permutation_sym Hperm)).
  - intros level. split.
    + intros Hin. apply (Permutation_in _ Hperm) in Hin.
      apply (proj1 (in_distinct member_eqb member_eqb_spec level raw)) in Hin.
      apply in_flat_map in Hin as (x & Hx & Hlv). exists x. split; [assumption|].
      destruct (importance x) as [i|]; [|destruct Hlv].
      destruct Hlv as [->|[]]. reflexivity.
    + intros (x & Hx & Hlv).
      apply (Permutation_in _ (Permutation_sym Hperm)).
      apply (proj2 (in_distinct member_eqb member_eqb_spec level raw)).
      apply in_flat_map. exists x. split; [assumption|]. rewrite Hlv. now left.
  - intros x Hx. destruct (importance x) as [i|] eqn:Hi; [now exists i|].
    exfalso. assert (existsb (fun x => negb (is_not_None (importance x))) fm = true).
    { apply existsb_exists. exists x. split; [assumption|]. now rewrite Hi. }
    congruence.
  - apply levels_descend; [|apply sorted_by_sorted].
    now apply (Permutation_NoDup (Permutation_sym Hperm)).
  - reflexivity.
Qed.

Lemma traverse_flat_map_perm {K V B} (round : K -> organize_error + V)
  (keys : list K) (res : list (K * V)) (f : V -> list B) (g : K -> list B) :
  traverse round keys = inr res ->
  (forall k v, In k keys -> round k = inr v -> Permutation (f v) (g k)) ->
  Permutation (flat_map (fun entry => f (snd entry)) res) (flat_map g keys).
Proof.
  revert res. induction keys as [|k keys IH]; intros res; simpl.
  - intros [= <-] _. constructor.
  - destruct (round k) as [e|v] eqn:Hk; [discriminate|].
    destruct (traverse round keys) as [e|more]; [discriminate|].
    intros [= <-] Hfg. simpl. apply Permutation_app.
    + now apply Hfg; [left|].
    + apply IH; [reflexivity|]. intros k' v' Hk'. apply Hfg. now right.
Qed.

Lemma traverse_inl {K V} (round : K -> organize_error + V) (keys : list K)
  (e : organize_error) :
  (forall k e', In k keys -> round k = inl e' -> e' = e) ->
  (exists k e', In k keys /\ round k = inl e') ->
  traverse round keys = inl e.
Proof.
  induction keys as [|k keys IH]; intros Hsame (k0 & e0 & Hin & Hk0); [destruct Hin|].
  simpl. destruct (round k) as [ek|v] eqn:Hk.
  - now rewrite (Hsame k ek (or_introl eq_refl) Hk).
  - destruct Hin as [->|Hin]; [congruence|].
    rewrite IH; [reflexivity | | eauto].
    intros k' e' Hk'. apply Hsame. now right.
Qed.

Lemma flat_map_perm_pointwise {A B} (f g : A -> list B) (l : list A) :
  (forall x, In x l -> Permutation (f x) (g x)) ->
  Permutation (flat_map f l) (flat_map g l).
Proof.
  induction l as [|x l IH]; intros Hfg; simpl; [constructor|].
  apply Permutation_app; [apply Hfg; now left|].
  apply IH. intros y Hy. apply Hfg. now right.
Qed.

(** The buckets of one file hold the messages of the file. *)
Lemma organize_file_perm (messages : list InspectorMessage) (f : option string)
  (buckets : organized_check_results_t) :
  organize_file messages f = inr buckets ->
  Permutation (flat_map snd buckets)
              (filter (fun x => file_eqb (file x) f) messages).
Proof.
  intros Hb. destruct (organize_file_inr messages f buckets Hb)
    as (levels & Hnd & Hlevels & Hsome & _ & ->).
  rewrite flat_map_concat_map, map_map, <- flat_map_concat_map. cbn [snd].
  rewrite (flat_map_perm_pointwise _
             (fun level => filter (fun x => importance_is (importance x) level)
                             (filter (fun x => file_eqb (file x) f) messages)))
    by (intros level _; apply sorted_by_perm).
  apply (partition_perm (fun x level => importance_is (importance x) level)).
  - assumption.
  - intros x Hx. destruct (Hsome x Hx) as (level & Hlv). exists level. split.
    + apply Hlevels. eauto.
    + now apply importance_is_spec.
  - intros x k k' _ _ Hk Hk'. apply importance_is_spec in Hk, Hk'. congruence.
Qed.

Lemma organize_mixed_files_lemma
  (path_lt : string -> string -> bool) (messages : list InspectorMessage)
  (m1 m2 : InspectorMessage) :
  In m1 messages -> file m1 = None ->
  In m2 messages -> file m2 <> None ->
  organize_messages_by_file path_lt messages = inl TypeError.
Proof.
  intros H1 Hf1 H2 Hf2. unfold organize_messages_by_file.
  destruct (file m2) as [p|] eqn:Hp; [|contradiction].
  rewrite (sorted_files_mixed path_lt messages p); [reflexivity| |].
  - rewrite <- Hf1. now apply in_map.
  - rewrite <- Hp. now apply in_map.
Qed.

(** X19.  If one message has its [file] unset and another has it set (as
    a validation message and a message of a check have), sorting the files
    compares [None] with a path: [organize_messages_by_file] raises a
    [TypeError] and returns nothing. *)
Theorem organize_mixed_files_raises
  (path_lt : string -> string -> bool) (messages : list InspectorMessage)
  (m1 m2 : InspectorMessage) :
  In m1 messages -> file m1 = None ->
  In m2 messages -> file m2 <> None ->
  organize_messages_by_file path_lt messages = inl TypeError.
Proof. apply organize_mixed_files_lemma. Qed.

Lemma organize_mixed_files_raises_witness :
  organize_messages_by_file String.ltb
    (Gen.yielded (inspect_nwb ValidationScenario.h ValidationScenario.w "v.nwb"
                    ValidationScenario.checks BEST_PRACTICE_SUGGESTION None None))
  = inl TypeError.
Proof.
  apply (organize_mixed_files_raises String.ltb _
           (validation_message ValidationScenario.missing_attribute)
           (set_file RaisingScenario.finding "v.nwb")).
  - simpl. now left.
  - reflexivity.
  - simpl. right. now left.
  - discriminate.
Defined.

(** X20.  If the files can be sorted (every message has its [file] set, or
    none has) and some message has no importance, as a message has that a
    check function built and nothing completed,
    [organize_messages_by_file] raises an [AttributeError]: the sort key
    reads [.value] of [None]. *)
Theorem organize_missing_importance_raises
  (path_lt : string -> string -> bool) (messages : list InspectorMessage)
  (m : InspectorMessage) :
  (forall x, In x messages -> file x <> None) \/
  (forall x, In x messages -> file x = None) ->
  In m messages -> importance m = None ->
  organize_messages_by_file path_lt messages
  = inl (Builtin (AttributeError "NoneType" "value")).
Proof.
  intros Hfiles Hm Hnone. unfold organize_messages_by_file.
  destruct (sorted_files path_lt messages) as [e|files] eqn:Hs.
  - exfalso. unfold sorted_files in Hs.
    destruct (existsb _ (distinct file_eqb (map file messages))) eqn:Hex; [|discriminate].
    destruct (2 <=? _)%nat eqn:Hlen; [|discriminate].
    apply existsb_exists in Hex as ([p|] & Hin & Hp); [discriminate|].
    apply (proj1 (in_distinct file_eqb file_eqb_spec _ _)) in Hin.
    apply in_map_iff in Hin as (x & Hx & Hxin).
    destruct Hfiles as [Hall|Hall]; [now apply (Hall x Hxin)|].
    apply Nat.leb_le in Hlen.
    pose proof (NoDup_distinct file_eqb file_eqb_spec (map file messages)) as Hnd.
    destruct (distinct file_eqb (map file messages)) as [|a [|b l]] eqn:Hd;
      simpl in Hlen; try lia.
    assert (Ha : In a (map file messages)).
    { apply (proj1 (in_distinct file_eqb file_eqb_spec _ _)). rewrite Hd. now left. }
    assert (Hb : In b (map file messages)).
    { apply (proj1 (in_distinct file_eqb file_eqb_spec _ _)). rewrite Hd. right. now left. }
    apply in_map_iff in Ha as (xa & <- & Hxa), Hb as (xb & <- & Hxb).
    rewrite (Hall xa Hxa), (Hall xb Hxb) in Hnd.
    inversion Hnd as [|? ? Hnot _]; subst. apply Hnot. now left.
  - destruct (sorted_files_inr path_lt messages files Hs) as [_ Hin].
    apply traverse_inl.
    + intros k e' _. unfold organize_file.
      destruct (existsb _ _); [now intros [= <-] | discriminate].
    + exists (file m), (Builtin (AttributeError "NoneType" "value")). split.
      * apply Hin. now apply in_map.
      * unfold organize_file.
        assert (Hex : existsb (fun x => negb (is_not_None (importance x)))
                        (filter (fun x => file_eqb (file x) (file m)) messages) = true).
        { apply existsb_exists. exists m. split; [|now rewrite Hnone].
          apply filter_In. split; [assumption | now apply file_eqb_spec]. }
        now rewrite Hex.
Qed.

Lemma organize_missing_importance_raises_witness :
  organize_messages_by_file String.ltb
    [OrganizeScenario.m1; set_file (plain_message "Description is missing." None) "b.nwb"]
  = inl (Builtin (AttributeError "NoneType" "value")).
Proof.
  apply (organize_missing_importance_raises String.ltb _
           (set_file (plain_message "Description is missing." None) "b.nwb")).
  - left. intros x [<-|[<-|[]]]; discriminate.
  - right. now left.
  - reflexivity.
Defined.

Lemma organize_facts
  (path_lt : string -> string -> bool) (messages : list InspectorMessage)
  (organized : list (option string * organized_check_results_t)) :
  organize_messages_by_file path_lt messages = inr organized ->
  Permutation (flat_map (fun entry => flat_map snd (snd entry)) organized) messages /\
  (forall f buckets key ms m,
     In (f, buckets) organized -> In (key, ms) buckets -> In m ms ->
     In m messages /\ file m = f /\
     exists level, key = KeyMember level /\ importance m = Some level) /\
  (forall f buckets, In (f, buckets) organized ->
     buckets <> [] /\ forall key ms, In (key, ms) buckets -> ms <> []).
Proof.
  unfold organize_messages_by_file.
  destruct (sorted_files path_lt messages) as [e|files] eqn:Hs; [discriminate|].
  intros Ht. destruct (sorted_files_inr path_lt messages files Hs) as [Hnd Hfiles].
  destruct (traverse_inr _ _ _ Ht) as [_ Hres].
  assert (Hbucket : forall f buckets key ms,
             In (f, buckets) organized -> In (key, ms) buckets ->
             exists level, key = KeyMember level /\
               Permutation ms (filter (fun x => importance_is (importance x) level)
                                 (filter (fun x => file_eqb (file x) f) messages)) /\
               exists x, In x (filter (fun x => file_eqb (file x) f) messages) /\
                         importance x = Some level).
  { intros f buckets key ms Hf Hk. destruct (Hres f buckets Hf) as [_ Hb].
    destruct (organize_file_inr messages f buckets Hb)
      as (levels & _ & Hlevels & _ & _ & ->).
    apply in_map_iff in Hk as (level & [= <- <-] & Hlv).
    exists level. split; [reflexivity|]. split; [apply sorted_by_perm|].
    now apply Hlevels. }
  split; [|split].
  - rewrite (traverse_flat_map_perm _ _ _ (fun buckets => flat_map snd buckets)
               (fun f => filter (fun x => file_eqb (file x) f) messages) Ht).
    + apply (partition_perm (fun x f => file_eqb (file x) f)); [assumption| |].
      * intros x Hx. exists (file x). split; [|now apply file_eqb_spec].
        apply Hfiles. now apply in_map.
      * intros x k k' _ _ Hk Hk'. apply file_eqb_spec in Hk, Hk'. congruence.
    + intros f buckets _. apply organize_file_perm.
  - intros f buckets key ms m Hf Hk Hm.
    destruct (Hbucket f buckets key ms Hf Hk) as (level & -> & Hperm & _).
    apply (Permutation_in _ Hperm) in Hm.
    apply filter_In in Hm as [Hm Himp]. apply filter_In in Hm as [Hm Hfile].
    apply file_eqb_spec in Hfile. apply importance_is_spec in Himp.
    repeat split; auto. now exists level.
  - intros f buckets Hf. split.
    + destruct (Hres f buckets Hf) as [Hin Hb].
      destruct (organize_file_inr messages f buckets Hb)
        as (levels & _ & Hlevels & Hsome & _ & ->).
      apply Hfiles in Hin. apply in_map_iff in Hin as (x & Hx & Hxin).
      assert (Hxf : In x (filter (fun x => file_eqb (file x) f) messages)).
      { apply filter_In. split; [assumption | now apply file_eqb_spec]. }
      destruct (Hsome x Hxf) as (level & Hlv).
      assert (Hl : In level levels) by (apply Hlevels; eauto).
      destruct levels; [destruct Hl | discriminate].
    + intros key ms Hk.
      destruct (Hbucket f buckets key ms Hf Hk) as (level & _ & Hperm & x & Hx & Hlv).
      assert (Hin : In x ms).
      { apply (Permutation_in _ (Permutation_sym Hperm)). apply filter_In.
        split; [assumption | now apply importance_is_spec]. }
      destruct ms; [destruct Hin | discriminate].
Qed.

(** X21.  When [organize_messages_by_file] returns, the buckets taken
    together hold exactly the given messages, each as often as it was given;
    every message of a bucket has the file of its entry and the importance
    that keys the bucket, which is an [Importance] member; and no file is
    without a bucket and no bucket without a message. *)
Theorem organize_partitions_messages
  (path_lt : string -> string -> bool) (messages : list InspectorMessage)
  (organized : list (option string * organized_check_results_t)) :
  organize_messages_by_file path_lt messages = inr organized ->
  Permutation (flat_map (fun entry => flat_map snd (snd entry)) organized) messages /\
  (forall f buckets key ms m,
     In (f, buckets) organized -> In (key, ms) buckets -> In m ms ->
     In m messages /\ file m = f /\
     exists level, key = KeyMember level /\ importance m = Some level) /\
  (forall f buckets, In (f, buckets) organized ->
     buckets <> [] /\ forall key ms, In (key, ms) buckets -> ms <> []).
Proof. apply organize_facts. Qed.

Lemma organize_partitions_messages_witness :
  Permutation
    [OrganizeScenario.m2; OrganizeScenario.m4; OrganizeScenario.m3;
     OrganizeScenario.m1; OrganizeScenario.m5]
    OrganizeScenario.messages.
Proof.
  apply (organize_partitions_messages String.ltb OrganizeScenario.messages
           [(Some "a.nwb", [(KeyMember CRITICAL, [OrganizeScenario.m2])]);
            (Some "b.nwb",
             [(KeyMember CRITICAL, [OrganizeScenario.m4]);
              (KeyMember BEST_PRACTICE_SUGGESTION,
               [OrganizeScenario.m3; OrganizeScenario.m1; OrganizeScenario.m5])])]).
  reflexivity.
Defined.

Lemma Sorted_map_Some (R : string -> string -> Prop) (l : list string) :
  Sorted R l ->
  Sorted (fun a b => match a, b with
                     | Some x, Some y => R x y
                     | _, _ => False
                     end) (map Some l).
Proof.
  induction 1 as [|x l Hs IH Hhd]; simpl; constructor; [assumption|].
  destruct Hhd; simpl; constructor. assumption.
Qed.

(** X22.  When [organize_messages_by_file] returns, for an order of paths
    in which two different paths always compare one way or the other, the
    files are keyed without repetition and each is below the next; and in
    each file the buckets are keyed by [Importance] members of strictly
    descending value. *)
Theorem organize_keys_order
  (path_lt : string -> string -> bool) (messages : list InspectorMessage)
  (organized : list (option string * organized_check_results_t)) :
  (forall a b, a <> b -> path_lt a b = true \/ path_lt b a = true) ->
  organize_messages_by_file path_lt messages = inr organized ->
  NoDup (map fst organized) /\
  Sorted (fun a b => match a, b with
                     | Some x, Some y => path_lt x y = true
                     | _, _ => False
                     end) (map fst organized) /\
  forall f buckets, In (f, buckets) organized ->
    exists levels,
      map fst buckets = map KeyMember levels /\
      Sorted (fun a b => (ImportanceEnum.value a > ImportanceEnum.value b)%Z) levels.
Proof.
  intros Htotal. unfold organize_messages_by_file.
  destruct (sorted_files path_lt messages) as [e|files] eqn:Hs; [discriminate|].
  intros Ht. destruct (traverse_inr _ _ _ Ht) as [Hfst Hres]. rewrite Hfst.
  destruct (sorted_files_inr path_lt messages files Hs) as [Hnd _].
  split; [assumption|]. split.
  - unfold sorted_files in Hs.
    destruct (existsb _ (distinct file_eqb (map file messages))) eqn:Hex.
    + destruct (2 <=? _)%nat eqn:Hlen; [discriminate|]. injection Hs as <-.
      apply Nat.leb_gt in Hlen.
      destruct (distinct file_eqb (map file messages)) as [|a [|b l]];
        simpl in Hlen; try lia; repeat constructor.
    + injection Hs as <-.
      apply (Sorted_map_Some (fun x y => path_lt x y = true)).
      apply sorted_paths_sorted; [assumption|].
      apply somes_NoDup. apply (NoDup_distinct file_eqb file_eqb_spec).
  - intros f buckets Hf. destruct (Hres f buckets Hf) as [_ Hb].
    destruct (organize_file_inr messages f buckets Hb)
      as (levels & _ & _ & _ & Hsorted & ->).
    exists levels. split; [|assumption].
    rewrite map_map. reflexivity.
Qed.

Lemma ltb_total (a b : string) : a <> b -> String.ltb a b = true \/ String.ltb b a = true.
Proof.
  intros Hne. unfold String.ltb. rewrite (String.compare_antisym b a).
  destruct (String.compare a b) eqn:Hc; simpl; auto.
  apply String.compare_eq_iff in Hc. contradiction.
Qed.

Lemma organize_keys_order_witness :
  Sorted (fun a b => match a, b with
                     | Some x, Some y => String.ltb x y = true
                     | _, _ => False
                     end) [Some "a.nwb"; Some "b.nwb"].
Proof.
  apply (organize_keys_order String.ltb OrganizeScenario.messages
           [(Some "a.nwb", [(KeyMember CRITICAL, [OrganizeScenario.m2])]);
            (Some "b.nwb",
             [(KeyMember CRITICAL, [OrganizeScenario.m4]);
              (KeyMember BEST_PRACTICE_SUGGESTION,
               [OrganizeScenario.m3; OrganizeScenario.m1; OrganizeScenario.m5])])]
           ltb_total eq_refl).
Defined.

(** X23.  In every bucket the messages are in order of descending
    severity, and the messages of one severity are in the order in which
    they were given: the sort of line 45 is stable. *)
Theorem organize_bucket_order
  (path_lt : string -> string -> bool) (messages : list InspectorMessage)
  (organized : list (option string * organized_check_results_t))
  (f : option string) (buckets : organized_check_results_t)
  (level : Importance) (ms : list InspectorMessage) :
  organize_messages_by_file path_lt messages = inr organized ->
  In (f, buckets) organized ->
  In (KeyMember level, ms) buckets ->
  Sorted (fun a b => (severity_value (severity a) >= severity_value (severity b))%Z) ms /\
  forall s : Severity,
    filter (fun x => Z.eqb (severity_value (severity x)) (severity_value s)) ms =
    filter (fun x => Z.eqb (severity_value (severity x)) (severity_value s))
      (filter (fun x => importance_is (importance x) level)
         (filter (fun x => file_eqb (file x) f) messages)).
Proof.
  unfold organize_messages_by_file.
  destruct (sorted_files path_lt messages) as [e|files]; [discriminate|].
  intros Ht Hf Hk. destruct (traverse_inr _ _ _ Ht) as [_ Hres].
  destruct (Hres f buckets Hf) as [_ Hb].
  destruct (organize_file_inr messages f buckets Hb) as (levels & _ & _ & _ & _ & ->).
  apply in_map_iff in Hk as (level' & [= -> <-] & _).
  split.
  - pose proof (sorted_by_sorted (fun x => (- severity_value (severity x))%Z)
                  (filter (fun x => importance_is (importance x) level)
                     (filter (fun x => file_eqb (file x) f) messages))) as Hs.
    induction Hs as [|a l Hs IH Hhd]; constructor; [assumption|].
    destruct Hhd; constructor. lia.
  - intros s.
    pose proof (sorted_by_stable (fun x => (- severity_value (severity x))%Z)
                  (- severity_value s)
                  (filter (fun x => importance_is (importance x) level)
                     (filter (fun x => file_eqb (file x) f) messages))) as Hst.
    assert (Hext : forall l,
               filter (fun x => Z.eqb (- severity_value (severity x)) (- severity_value s)) l
               = filter (fun x => Z.eqb (severity_value (severity x)) (severity_value s)) l).
    { intros l. apply filter_ext. intros x.
      destruct (Z.eqb_spec (severity_value (severity x)) (severity_value s)),
               (Z.eqb_spec (- severity_value (severity x)) (- severity_value s));
        try reflexivity; lia. }
    now rewrite !Hext in Hst.
Qed.

Lemma organize_bucket_order_witness :
  Sorted (fun a b => (severity_value (severity a) >= severity_value (severity b))%Z)
    [OrganizeScenario.m3; OrganizeScenario.m1; OrganizeScenario.m5].
Proof.
  apply (organize_bucket_order String.ltb OrganizeScenario.messages
           [(Some "a.nwb", [(KeyMember CRITICAL, [OrganizeScenario.m2])]);
            (Some "b.nwb",
             [(KeyMember CRITICAL, [OrganizeScenario.m4]);
              (KeyMember BEST_PRACTICE_SUGGESTION,
               [OrganizeScenario.m3; OrganizeScenario.m1; OrganizeScenario.m5])])]
           (Some "b.nwb")
           [(KeyMember CRITICAL, [OrganizeScenario.m4]);
            (KeyMember BEST_PRACTICE_SUGGESTION,
             [OrganizeScenario.m3; OrganizeScenario.m1; OrganizeScenario.m5])]
           BEST_PRACTICE_SUGGESTION
           [OrganizeScenario.m3; OrganizeScenario.m1; OrganizeScenario.m5]
           eq_refl).
  - right. now left.
  - right. now left.
Defined.

(* ------------------------------------------------------------------ *)
(** ** From the messages of a run to the report *)

Lemma count_bucket_messages_flat (buckets : organized_check_results_t) :
  count_bucket_messages buckets = length (flat_map snd buckets).
Proof.
  unfold count_bucket_messages.
  induction buckets as [|[key ms] buckets IH]; [reflexivity|].
  cbn [map flat_map snd]. rewrite length_app, <- IH. reflexivity.
Qed.

Lemma count_messages_flat
  (organized : list (option string * organized_check_results_t)) :
  count_messages organized
  = length (flat_map (fun entry => flat_map snd (snd entry)) organized).
Proof.
  unfold count_messages.
  induction organized as [|[f buckets] organized IH]; [reflexivity|].
  cbn [map flat_map snd]. rewrite length_app, <- IH, <- count_bucket_messages_flat.
  reflexivity.
Qed.

(** X24.  When the messages can be organized, the report of lines 145-146
    is made without an exception, and it has three lines for each file less
    one (a name, a rule, and a separator between two files), two for each
    bucket and one entry for each message: no message is lost and none is
    shown twice. *)
Theorem report_lines_count
  (path_lt : string -> string -> bool) (messages : list InspectorMessage)
  (organized : list (option string * organized_check_results_t)) :
  messages <> [] ->
  organize_messages_by_file path_lt messages = inr organized ->
  exists lines,
    report_lines path_lt messages = inr (Some lines) /\
    length lines =
      3 * length organized - 1 + 2 * count_buckets organized + length messages.
Proof.
  intros Hne Horg.
  destruct (organize_facts path_lt messages organized Horg) as (Hperm & Hmembers & _).
  destruct (format_files_length organized 1 (length organized)) as (lines & Hfmt & Hlen).
  - intros name buckets key results Hf Hk.
    destruct results as [|m results].
    + destruct (organize_facts path_lt messages organized Horg) as (_ & _ & Hnonempty).
      destruct (Hnonempty name buckets Hf) as [_ Hms]. now destruct (Hms key [] Hk).
    + destruct (Hmembers name buckets key (m :: results) m Hf Hk (or_introl eq_refl))
        as (_ & _ & level & -> & _). now exists level.
  - reflexivity.
  - exists lines. split.
    + unfold report_lines. destruct messages; [contradiction|].
      rewrite Horg. unfold format_organized_results_output. now rewrite Hfmt.
    + rewrite Hlen, count_messages_flat. now rewrite (Permutation_length Hperm).
Qed.

Lemma report_lines_count_witness :
  exists lines,
    report_lines String.ltb OrganizeScenario.messages = inr (Some lines) /\
    length lines = 3 * 2 - 1 + 2 * 3 + 5.
Proof.
  apply (report_lines_count String.ltb OrganizeScenario.messages
           [(Some "a.nwb", [(KeyMember CRITICAL, [OrganizeScenario.m2])]);
            (Some "b.nwb",
             [(KeyMember CRITICAL, [OrganizeScenario.m4]);
              (KeyMember BEST_PRACTICE_SUGGESTION,
               [OrganizeScenario.m3; OrganizeScenario.m1; OrganizeScenario.m5])])]).
  - discriminate.
  - reflexivity.
Defined.

(** X25.  For a single file that is read, has at least one validation
    error and for which the checks that are run yield messages only, at
    least one, and raise nothing, [inspect_all] ends without an exception
    but its messages cannot be made into a report: the validation message
    was never given a [file], the messages of the checks have one, and
    [organize_messages_by_file] is left by an exception.  Which one
    depends on how the record declares [file] (a [TypeError] from the sort
    when the field reads as [None], as it does here), so the statement
    fixes no kind. *)
Theorem report_fails_on_validation_error_and_finding
  (path_lt : string -> string -> bool) (fs : filesystem) (w : world)
  (available_checks : list check_ref) (path : string)
  (ignore select : option (list string)) (thr : Importance) (h : store)
  (io : NWBHDF5IO) (ve : ValidationError) (ves : list ValidationError)
  (nwbfile : NWBFile) (m0 : InspectorMessage) :
  fs path = RegularFile ->
  is_not_None ignore && is_not_None select = false ->
  w path = inr io ->
  io_validate io = inr (ve :: ves) ->
  io_read io = inr nwbfile ->
  (forall v,
     In v (Gen.yielded (run_checks h nwbfile
                          (filter_checks h available_checks thr ignore select))) ->
     is_message v = true) ->
  In (PMessage m0)
     (Gen.yielded (run_checks h nwbfile
                     (filter_checks h available_checks thr ignore select))) ->
  raised (run_checks h nwbfile (filter_checks h available_checks thr ignore select))
  = None ->
  raised (snd (inspect_all fs w available_checks path ignore select None thr h)) = None /\
  exists e,
    report_lines path_lt
      (Gen.yielded (snd (inspect_all fs w available_checks path ignore select None thr h)))
    = inl e.
Proof.
  intros Hfs Hguard Hw Hval Hread Hall Hm0 Hquiet.
  rewrite (inspect_all_files fs w available_checks path ignore select thr h [path])
    by (right; now split).
  cbn [snd]. rewrite for_each_cons. cbn [Gen.for_each fold_right]. rewrite seq_skip_r.
  destruct (inspect_nwb_yielded h w path available_checks thr ignore select io
              (ve :: ves) nwbfile Hguard Hw Hval Hread Hall) as [Hy Hr].
  split; [now rewrite Hr|]. exists TypeError.
  rewrite Hy. cbn [map app]. unfold report_lines.
  rewrite (organize_mixed_files_lemma path_lt _ (validation_message ve)
             (set_file m0 path)); [reflexivity | now left | reflexivity | | discriminate].
  right. apply in_or_app. right. apply (in_map (fun m => set_file m path)).
  unfold messages_of. apply in_flat_map. exists (PMessage m0). split; [assumption|].
  now left.
Qed.

Lemma report_fails_on_validation_error_and_finding_witness :
  exists e,
    report_lines String.ltb
      (Gen.yielded
         (snd (inspect_all (fun _ => RegularFile) ValidationScenario.w
                 ValidationScenario.checks "v.nwb" None None None
                 BEST_PRACTICE_SUGGESTION ValidationScenario.h)))
    = inl e.
Proof.
  apply (report_fails_on_validation_error_and_finding String.ltb
           (fun _ => RegularFile) ValidationScenario.w ValidationScenario.checks
           "v.nwb" None None BEST_PRACTICE_SUGGESTION ValidationScenario.h
           ValidationScenario.io ValidationScenario.missing_attribute []
           {| objects := [time_series_object] |} RaisingScenario.finding);
    try reflexivity.
  - intros v [<-|[]]. reflexivity.
  - simpl. now left.
Defined.

(* ------------------------------------------------------------------ *)
(** ** The checks on shapes *)

Lemma check_data_orientation_nothing (first : nat) (others : list nat)
  (stamps : option (list nat)) :
  check_data_orientation {| data_shape := Some (first :: others);
                            timestamps_shape := stamps |} = Nothing
  <-> Forall (fun d => d <= first) others.
Proof.
  unfold check_data_orientation; simpl.
  destruct (existsb (fun d => Nat.ltb first d) others) eqn:Hex.
  - split; [discriminate|]. intros Hall. exfalso.
    apply existsb_exists in Hex as (d & Hin & Hlt).
    apply Nat.ltb_lt in Hlt. rewrite Forall_forall in Hall.
    specialize (Hall d Hin). lia.
  - split; [|reflexivity]. intros _. apply Forall_forall. intros d Hin.
    destruct (Nat.leb_spec d first) as [|Hlt]; [assumption|]. exfalso.
    assert (existsb (fun d => Nat.ltb first d) others = true).
    { apply existsb_exists. exists d. split; [assumption | now apply Nat.ltb_lt]. }
    congruence.
Qed.

(** X26.  [check_data_orientation] reports nothing exactly when no axis of
    the data is longer than the first one; so of a matrix and its
    transpose at most one is reported, exactly one unless the matrix is
    square, and data of one dimension is never reported. *)
Theorem check_data_orientation_first_axis_longest
  (first : nat) (others : list nat) (rows columns : nat)
  (stamps : option (list nat)) :
  (check_data_orientation {| data_shape := Some (first :: others);
                             timestamps_shape := stamps |} = Nothing
   <-> Forall (fun d => d <= first) others) /\
  is_finding (check_data_orientation (matrix_series rows columns stamps))
  && is_finding (check_data_orientation (matrix_series columns rows stamps)) = false /\
  (is_finding (check_data_orientation (matrix_series rows columns stamps))
   || is_finding (check_data_orientation (matrix_series columns rows stamps))
   = negb (Nat.eqb rows columns)) /\
  check_data_orientation {| data_shape := Some [first]; timestamps_shape := stamps |}
  = Nothing.
Proof.
  split; [apply check_data_orientation_nothing|].
  unfold check_data_orientation, matrix_series; simpl.
  destruct (Nat.ltb_spec rows columns), (Nat.ltb_spec columns rows),
           (Nat.eqb_spec rows columns); simpl; repeat split; try reflexivity; lia.
Qed.

(** X27.  If [check_data_orientation] and
    [check_timestamps_match_first_dimension] both report nothing for data
    of at least one dimension with timestamps, the timestamps have one
    dimension, as long as the first axis of the data, and no axis of the
    data is longer than the timestamps. *)
Theorem shape_checks_pass
  (first : nat) (others stamps : list nat) :
  check_data_orientation {| data_shape := Some (first :: others);
                            timestamps_shape := Some stamps |} = Nothing ->
  check_timestamps_match_first_dimension
    {| data_shape := Some (first :: others); timestamps_shape := Some stamps |}
  = Nothing ->
  stamps = [first] /\ Forall (fun d => d <= first) others.
Proof.
  intros Horient Hstamps. split.
  - unfold check_timestamps_match_first_dimension, shape_neb in Hstamps.
    cbn [data_shape timestamps_shape firstn] in Hstamps.
    destruct (list_eq_dec Nat.eq_dec [first] stamps) as [<-|]; [reflexivity|].
    discriminate Hstamps.
  - now apply (check_data_orientation_nothing first others (Some stamps)).
Qed.

Lemma shape_checks_pass_witness :
  [1000] = [1000] /\ Forall (fun d => d <= 1000) [4; 3].
Proof.
  apply (shape_checks_pass 1000 [4; 3] [1000]); reflexivity.
Defined.

(* ------------------------------------------------------------------ *)
(** ** [save_report] *)

(** X28.  After a report has been saved to a path, saving to that path
    again without [overwrite] raises [FileExistsError], and the first
    report stays; with [overwrite] the file holds the lines of the second
    report, joined.  A save never changes another path. *)
Theorem save_report_twice
  (d d1 : disk) (path : string) (first second : list string) (overwrite : bool) :
  save_report d path first overwrite = Saved d1 ->
  d1 path = Some (String.concat "" first) /\
  save_report d1 path second false = RaisesFileExistsError /\
  (exists d2, save_report d1 path second true = Saved d2 /\
              d2 path = Some (String.concat "" second) /\
              forall other, other <> path -> d2 other = d other) /\
  forall other, other <> path -> d1 other = d other.
Proof.
  unfold save_report.
  destruct (is_not_None (d path) && negb overwrite); [discriminate|].
  intros [= <-]. cbn beta. rewrite !String.eqb_refl. cbn [is_not_None negb andb].
  split; [reflexivity|]. split; [reflexivity|]. split.
  - eexists. split; [reflexivity|]. cbn beta. rewrite String.eqb_refl.
    split; [reflexivity|]. intros other Hne.
    destruct (String.eqb_spec other path); [contradiction | reflexivity].
  - intros other Hne. destruct (String.eqb_spec other path); [contradiction | reflexivity].
Qed.

Lemma save_report_twice_witness :
  save_report
    (fun path => if String.eqb path "report.txt" then Some "one" else None)
    "report.txt" ["two"] false
  = RaisesFileExistsError.
Proof.
  apply (save_report_twice (fun _ => None)
           (fun path => if String.eqb path "report.txt" then Some "one" else None)
           "report.txt" ["one"] ["two"] false).
  reflexivity.
Defined.

(* ------------------------------------------------------------------ *)
(** ** What is called and what is yielded *)


(** The checks [inspect_nwb] calls passed the filters of lines 278-283. *)
Lemma inspect_nwb_calls_in_filter
  (h : store) (w : world) (path : string) (checks : list check_ref)
  (thr : Importance) (ignore select : option (list string))
  (c : check_ref) (o : nwb_object) :
  In (c, o) (Gen.calls (inspect_nwb h w path checks thr ignore select)) ->
  In c (filter_checks h checks thr ignore select).
Proof.
  intros Hin. apply in_calls_effects in Hin. unfold inspect_nwb in Hin.
  destruct (is_not_None ignore && is_not_None select); [destruct Hin|].
  apply effects_seq_in in Hin as [[H|[]]|Hin]; [discriminate H|].
  destruct (w path) as [e|io]; [destruct Hin|].
  rewrite effects_closing in Hin. apply in_app_or in Hin as [Hin|[H|[]]];
    [|discriminate H].
  apply effects_inspect_opened in Hin as (c' & o' & file & [= <- <-] & _ & Hc & _).
  exact Hc.
Qed.

(** For a file that is read, when the checks that pass the filters raise
    nothing but [Exception]s and yield nothing but messages, each of them
    is called on each object of its neurodata type, and each message of
    such a call is yielded, stamped with the path. *)
Lemma inspect_nwb_runs_passing_checks
  (h : store) (w : world) (path : string) (checks : list check_ref)
  (thr : Importance) (ignore select : option (list string))
  (io : NWBHDF5IO) (ves : list ValidationError) (nwbfile : NWBFile) :
  is_not_None ignore && is_not_None select = false ->
  w path = inr io ->
  io_validate io = inr ves ->
  io_read io = inr nwbfile ->
  (forall c o e, In c (filter_checks h checks thr ignore select) ->
     In o (objects nwbfile) -> applies_to h c o = true ->
     Check.call (h c) o = Raised e -> isinstance_Exception e = true) ->
  (forall v,
     In v (Gen.yielded (run_checks h nwbfile (filter_checks h checks thr ignore select))) ->
     is_message v = true) ->
  forall c o,
    In c (filter_checks h checks thr ignore select) ->
    In o (objects nwbfile) -> applies_to h c o = true ->
    In (c, o) (Gen.calls (inspect_nwb h w path checks thr ignore select)) /\
    forall m, In (PMessage m) (pair_items h c o) ->
      In (set_file m path)
         (Gen.yielded (inspect_nwb h w path checks thr ignore select)).
Proof.
  intros Hguard Hw Hval Hread Hexc Hall c o Hc Ho Happ.
  set (fc := filter_checks h checks thr ignore select) in *.
  assert (Hrun : run_checks h nwbfile fc =
                 mkGen (flat_map (fun c => flat_map (pair_events h c) (objects nwbfile)) fc)
                       None).
  { unfold run_checks. apply for_each_quiet. intros c' Hc'.
    apply for_each_quiet. intros o' Ho'. apply run_check_quiet.
    intros e. now apply Hexc. }
  assert (Hpair : forall ev, In ev (pair_events h c o) ->
                    In ev (trace (run_checks h nwbfile fc))).
  { intros ev Hev. rewrite Hrun. cbn [trace].
    apply in_flat_map. exists c. split; [assumption|].
    apply in_flat_map. exists o. now split. }
  assert (Hevents : pair_events h c o = Eff (Call c o) :: map Yield (pair_items h c o)).
  { unfold pair_events. now rewrite Happ. }
  split.
  - assert (Hloop : inspect_read h (Some nwbfile) path checks thr ignore select =
                    mkGen (flat_map (stamp_event path) (trace (run_checks h nwbfile fc)))
                          (raised (run_checks h nwbfile fc))).
    { unfold inspect_read, Gen.for_in. apply consume_all_messages.
      intros v Hv. apply Hall. now apply in_yielded_trace. }
    apply in_calls_effects. unfold inspect_nwb. rewrite Hguard, Hw.
    unfold inspect_opened. rewrite Hval, Hread, Hloop, for_each_yield.
    rewrite effects_seq by reflexivity. apply in_or_app. right.
    rewrite effects_closing. apply in_or_app. left.
    rewrite effects_seq by reflexivity. apply in_or_app. right.
    apply in_effects_trace. cbn [trace]. apply in_flat_map.
    exists (Eff (Call c o)). split; [|now left].
    apply Hpair. rewrite Hevents. now left.
  - intros m Hm.
    destruct (inspect_nwb_yielded h w path checks thr ignore select io ves nwbfile
                Hguard Hw Hval Hread Hall) as [Hy _].
    rewrite Hy. apply in_or_app. right.
    apply (in_map (fun m => set_file m path)).
    unfold messages_of. apply in_flat_map. exists (PMessage m).
    split; [|now left]. apply in_yielded_trace. apply Hpair.
    rewrite Hevents. right. now apply in_map.
Qed.

(** C5 (amended).  The threshold is compared with the importance of each
    check, not of each message.  A check is handed to [run_checks] exactly
    when [select] and [ignore] let it through and its own importance is not
    below the threshold; a run with a threshold is the run with the lowest
    threshold on the checks whose own importance is not below it; and no
    other check is ever called.  For a file that is read, when the checks
    that pass raise nothing but [Exception]s and yield nothing but
    messages, each of them is called on every object of its neurodata type
    and every message of such a call is yielded, whatever importance the
    message carries.  The PYNWB_VALIDATION messages of the validator and
    the ERROR message of a failed read are yielded under every
    threshold. *)
Theorem inspect_nwb_threshold_filters_checks
  (h : store) (w : world) (path : string) (checks : list check_ref)
  (thr : Importance) (ignore select : option (list string))
  (io : NWBHDF5IO) (validation_errors : list ValidationError) :
  is_not_None ignore && is_not_None select = false ->
  w path = inr io ->
  io_validate io = inr validation_errors ->
  (forall c : check_ref,
     In c (filter_checks h checks thr ignore select) <->
     In c (filter_checks h checks BEST_PRACTICE_SUGGESTION ignore select) /\
     (ImportanceEnum.value (Check.importance (h c)) >= ImportanceEnum.value thr)%Z) /\
  inspect_nwb h w path checks thr ignore select =
    inspect_nwb h w path
      (filter (fun x => (ImportanceEnum.value (Check.importance (h x))
                         >=? ImportanceEnum.value thr)%Z) checks)
      BEST_PRACTICE_SUGGESTION ignore select /\
  (forall v, In v validation_errors ->
     In (validation_message v)
        (Gen.yielded (inspect_nwb h w path checks thr ignore select))) /\
  (forall ex, io_read io = inl ex -> isinstance_Exception ex = true ->
     In (read_error_message ex)
        (Gen.yielded (inspect_nwb h w path checks thr ignore select))) /\
  (forall c o,
     In (c, o) (Gen.calls (inspect_nwb h w path checks thr ignore select)) ->
     In c (filter_checks h checks BEST_PRACTICE_SUGGESTION ignore select) /\
     (ImportanceEnum.value (Check.importance (h c)) >= ImportanceEnum.value thr)%Z) /\
  (forall nwbfile,
     io_read io = inr nwbfile ->
     (forall c o e, In c (filter_checks h checks thr ignore select) ->
        In o (objects nwbfile) -> applies_to h c o = true ->
        Check.call (h c) o = Raised e -> isinstance_Exception e = true) ->
     (forall v,
        In v (Gen.yielded (run_checks h nwbfile
                             (filter_checks h checks thr ignore select))) ->
        is_message v = true) ->
     forall c o,
       In c (filter_checks h checks BEST_PRACTICE_SUGGESTION ignore select) ->
       (ImportanceEnum.value (Check.importance (h c)) >= ImportanceEnum.value thr)%Z ->
       In o (objects nwbfile) -> applies_to h c o = true ->
       In (c, o) (Gen.calls (inspect_nwb h w path checks thr ignore select)) /\
       forall m, In (PMessage m) (pair_items h c o) ->
         In (set_file m path)
            (Gen.yielded (inspect_nwb h w path checks thr ignore select))).
Proof.
  intros Hguard Hw Hval.
  destruct (inspect_nwb_threshold_facts h w path checks thr ignore select io
              validation_errors Hguard Hw Hval) as (H1 & H2 & H3 & H4).
  split; [exact H1|]. split; [exact H2|]. split; [exact H3|]. split; [exact H4|].
  split.
  - intros c o Hcall. apply H1.
    now apply (inspect_nwb_calls_in_filter h w path checks thr ignore select c o).
  - intros nwbfile Hread Hexc Hall c o Hc Hthr Ho Happ.
    apply (inspect_nwb_runs_passing_checks h w path checks thr ignore select io
             validation_errors nwbfile); auto.
    apply H1. now split.
Qed.

Lemma inspect_nwb_threshold_filters_checks_witness :
  In (0, time_series_object)
     (Gen.calls (inspect_nwb ThresholdScenario.h ThresholdScenario.w "f.nwb"
                   ThresholdScenario.checks CRITICAL None None)) /\
  In (set_file ThresholdScenario.suggestion "f.nwb")
     (Gen.yielded (inspect_nwb ThresholdScenario.h ThresholdScenario.w "f.nwb"
                     ThresholdScenario.checks CRITICAL None None)) /\
  importance (set_file ThresholdScenario.suggestion "f.nwb")
  = Some BEST_PRACTICE_SUGGESTION /\
  ~ In (1, time_series_object)
      (Gen.calls (inspect_nwb ThresholdScenario.h ThresholdScenario.w "f.nwb"
                    ThresholdScenario.checks CRITICAL None None)).
Proof.
  destruct (inspect_nwb_threshold_filters_checks
              ThresholdScenario.h ThresholdScenario.w "f.nwb"
              ThresholdScenario.checks CRITICAL None None
              BatchScenario.good_io [] eq_refl eq_refl eq_refl)
    as (_ & _ & _ & _ & Honly & Hrun).
  destruct (Hrun {| objects := [time_series_object] |} eq_refl) with
    (c := 0) (o := time_series_object) as [Hcall Hmsg].
  - intros c o e [<-|[]] _ _ Hcall. discriminate Hcall.
  - intros v [<-|[]]. reflexivity.
  - simpl. now left.
  - simpl. lia.
  - now left.
  - reflexivity.
  - split; [exact Hcall|]. split; [apply Hmsg; now left|]. split; [reflexivity|].
    intros Hin. apply Honly in Hin as [_ Hthr]. simpl in Hthr. lia.
Defined.

(** C10.  With [select] the empty list and no [ignore], the checks handed to
    [run_checks] are all those that pass the threshold, and the whole run
    is the run without [select]; so, for a file that is read, when those
    checks raise nothing but [Exception]s and yield nothing but messages,
    every check of the list whose importance is not below the threshold is
    called on every object of its neurodata type: the empty list selects
    all checks, not none. *)
Theorem inspect_nwb_empty_select_runs_all
  (h : store) (w : world) (path : string) (checks : list check_ref)
  (thr : Importance) :
  filter_checks h checks thr None (Some []) =
    filter (fun x => (ImportanceEnum.value (Check.importance (h x))
                      >=? ImportanceEnum.value thr)%Z) checks /\
  inspect_nwb h w path checks thr None (Some []) =
    inspect_nwb h w path checks thr None None /\
  forall io ves nwbfile,
    w path = inr io -> io_validate io = inr ves -> io_read io = inr nwbfile ->
    (forall c o e, In c checks ->
       (ImportanceEnum.value (Check.importance (h c)) >= ImportanceEnum.value thr)%Z ->
       In o (objects nwbfile) -> applies_to h c o = true ->
       Check.call (h c) o = Raised e -> isinstance_Exception e = true) ->
    (forall v,
       In v (Gen.yielded (run_checks h nwbfile
               (filter (fun x => (ImportanceEnum.value (Check.importance (h x))
                                  >=? ImportanceEnum.value thr)%Z) checks))) ->
       is_message v = true) ->
    forall c o,
      In c checks ->
      (ImportanceEnum.value (Check.importance (h c)) >= ImportanceEnum.value thr)%Z ->
      In o (objects nwbfile) -> applies_to h c o = true ->
      In (c, o) (Gen.calls (inspect_nwb h w path checks thr None (Some []))).
Proof.
  destruct (inspect_nwb_empty_select_same_run h w path checks thr) as [Hfilter Hsame].
  split; [exact Hfilter|]. split; [exact Hsame|].
  intros io ves nwbfile Hw Hval Hread Hexc Hall c o Hc Hthr Ho Happ.
  assert (Hpass : forall c', In c' (filter_checks h checks thr None (Some [])) <->
            In c' checks /\
            (ImportanceEnum.value (Check.importance (h c')) >= ImportanceEnum.value thr)%Z).
  { intros c'. rewrite Hfilter, filter_In, Z.geb_le, Z.ge_le_iff. reflexivity. }
  apply (inspect_nwb_runs_passing_checks h w path checks thr None (Some []) io ves nwbfile);
    [reflexivity | exact Hw | exact Hval | exact Hread | | exact Hall | | exact Ho
    | exact Happ].
  - intros c' o' e Hc'. apply Hpass in Hc' as [Hin' Hthr']. now apply Hexc.
  - apply Hpass. now split.
Qed.

Lemma inspect_nwb_empty_select_runs_all_witness :
  In (0, time_series_object)
     (Gen.calls (inspect_nwb ThresholdScenario.h ThresholdScenario.w "f.nwb"
                   ThresholdScenario.checks BEST_PRACTICE_SUGGESTION None (Some []))) /\
  In (1, time_series_object)
     (Gen.calls (inspect_nwb ThresholdScenario.h ThresholdScenario.w "f.nwb"
                   ThresholdScenario.checks BEST_PRACTICE_SUGGESTION None (Some []))).
Proof.
  destruct (inspect_nwb_empty_select_runs_all
              ThresholdScenario.h ThresholdScenario.w "f.nwb"
              ThresholdScenario.checks BEST_PRACTICE_SUGGESTION)
    as (_ & _ & Hrun).
  assert (Hexc : forall c o e, In c ThresholdScenario.checks ->
            (ImportanceEnum.value (Check.importance (ThresholdScenario.h c))
             >= ImportanceEnum.value BEST_PRACTICE_SUGGESTION)%Z ->
            In o [time_series_object] -> applies_to ThresholdScenario.h c o = true ->
            Check.call (ThresholdScenario.h c) o = Raised e ->
            isinstance_Exception e = true).
  { intros c o e [<-|[<-|[]]] _ _ _ Hcall; [discriminate Hcall|].
    injection Hcall as <-. reflexivity. }
  assert (Hall : forall v,
            In v (Gen.yielded
                    (run_checks ThresholdScenario.h {| objects := [time_series_object] |}
                       (filter (fun x =>
                                  (ImportanceEnum.value
                                     (Check.importance (ThresholdScenario.h x))
                                   >=? ImportanceEnum.value BEST_PRACTICE_SUGGESTION)%Z)
                               ThresholdScenario.checks))) ->
            is_message v = true).
  { intros v [<-|[<-|[]]]; reflexivity. }
  split.
  - apply (Hrun BatchScenario.good_io [] {| objects := [time_series_object] |}
             eq_refl eq_refl eq_refl Hexc Hall 0 time_series_object);
      [now left | simpl; lia | now left | reflexivity].
  - apply (Hrun BatchScenario.good_io [] {| objects := [time_series_object] |}
             eq_refl eq_refl eq_refl Hexc Hall 1 time_series_object);
      [right; now left | simpl; lia | now left | reflexivity].
Defined.
